(** * Sponsor Pathfinder: the qualification-and-routing pipeline

    A shallow embedding of the crawler, the signal analyzer, the contact and
    people extractors and the contact-path selector of the sponsor-pathfinder
    tool, with the properties its specification states about them.

    Conventions of the embedding.
    - A JavaScript string is a [string]; the text handled here is ASCII, so
      [toLowerCase] and the white-space tests act on ASCII code units.
    - A JavaScript [number] holding a score is a [Z].
    - A [Map] or [Set] whose iteration order the code relies on is a list in
      insertion order ([mapSet], [setAdd]).
    - What the code obtains from its run-time platform (the network, the URL
      parser, the regular-expression engine, the HTML parser, the query-string
      encoder) is a field of the record [Platform]; a theorem holds for
      every platform, or states what it asks of the platform.
    - The rate limiter only delays a request; it is not part of the model. *)

From Stdlib Require Import List String Ascii ZArith Lia Bool Permutation.
From Stdlib Require Import Sorting.Sorted.
Import ListNotations.
Open Scope string_scope.
Open Scope list_scope.

(* ================================================================== *)
(** ** JavaScript primitives used by the sources *)
(* ================================================================== *)

Module JS.

(** [c.toLowerCase()] on one ASCII code unit. *)
Definition lowerAscii (c : ascii) : ascii :=
  let n := nat_of_ascii c in
  if (65 <=? n)%nat && (n <=? 90)%nat then ascii_of_nat (n + 32) else c.

(** [s.toLowerCase()]. *)
Fixpoint toLowerCase (s : string) : string :=
  match s with
  | EmptyString => EmptyString
  | String c r => String (lowerAscii c) (toLowerCase r)
  end.

(** [s.startsWith(t)]. *)
Definition startsWith (s t : string) : bool := String.prefix t s.

(** [s.includes(t)]: [t] occurs in [s] as a substring. *)
Fixpoint includes (s t : string) : bool :=
  String.prefix t s ||
  match s with
  | EmptyString => false
  | String _ r => includes r t
  end.

(** [s.split(sep)] for a one-character separator, as its first piece and
    the list of the following ones: the array is never empty. *)
Fixpoint splitOn (sep : ascii) (s : string) : string * list string :=
  match s with
  | EmptyString => (EmptyString, [])
  | String c r =>
      let (h, t) := splitOn sep r in
      if Ascii.eqb c sep then (EmptyString, h :: t) else (String c h, t)
  end.

Definition split (sep : ascii) (s : string) : list string :=
  let (h, t) := splitOn sep s in h :: t.

(** [s.split(sep)[0]]. *)
Definition splitHead (sep : ascii) (s : string) : string := fst (splitOn sep s).

(** [s.split(sep)[1]], [undefined] when there is no second piece. *)
Definition splitSecond (sep : ascii) (s : string) : option string :=
  hd_error (snd (splitOn sep s)).

(** Truthiness of a string. *)
Definition truthy (s : string) : bool :=
  match s with EmptyString => false | _ => true end.

(** [a.join(' ')]. *)
Fixpoint joinSpace (l : list string) : string :=
  match l with
  | [] => EmptyString
  | [x] => x
  | x :: r => String.append x (String " " (joinSpace r))
  end.

(** [a.push(x)]. *)
Definition push {A} (a : list A) (x : A) : list A := a ++ [x].

(** [a.sort(cmp)]: the sort is stable, and for the comparators used here
    (a difference of integer scores) its result is the stable ordering by
    that comparator, computed here by insertion from the right. *)
Fixpoint insertBy {A} (cmp : A -> A -> Z) (x : A) (l : list A) : list A :=
  match l with
  | [] => [x]
  | y :: t => if (cmp x y <=? 0)%Z then x :: y :: t else y :: insertBy cmp x t
  end.

Definition sort {A} (cmp : A -> A -> Z) (l : list A) : list A :=
  fold_right (insertBy cmp) [] l.

(** [set.has(x)] and [set.add(x)] on a set of strings kept in insertion
    order. *)
Definition setHas (s : list string) (x : string) : bool :=
  existsb (String.eqb x) s.

Definition setAdd (s : list string) (x : string) : list string :=
  if setHas s x then s else s ++ [x].

(** [map.set(k, v)] on a map with string keys kept in insertion order: an
    existing key keeps its place and takes the new value. *)
Fixpoint mapSet {V} (m : list (string * V)) (k : string) (v : V)
  : list (string * V) :=
  match m with
  | [] => [(k, v)]
  | (k', v') :: r =>
      if String.eqb k' k then (k, v) :: r else (k', v') :: mapSet r k v
  end.

Definition isSpace (c : ascii) : bool :=
  let n := nat_of_ascii c in
  (n =? 32)%nat || ((9 <=? n)%nat && (n <=? 13)%nat).

(** [s.replace(/\s+/g, ' ')]; [inRun] tells that the previous character was
    white space. *)
Fixpoint collapseSpaces (inRun : bool) (s : string) : string :=
  match s with
  | EmptyString => EmptyString
  | String c r =>
      if isSpace c then
        if inRun then collapseSpaces true r
        else String " " (collapseSpaces true r)
      else String c (collapseSpaces false r)
  end.

Fixpoint trimStart (s : string) : string :=
  match s with
  | EmptyString => EmptyString
  | String c r => if isSpace c then trimStart r else s
  end.

Fixpoint trimEnd (s : string) : string :=
  match s with
  | EmptyString => EmptyString
  | String c r =>
      match trimEnd r with
      | EmptyString => if isSpace c then EmptyString else String c EmptyString
      | r' => String c r'
      end
  end.

(** [s.trim()]. *)
Definition trim (s : string) : string := trimEnd (trimStart s).

(** [s.indexOf(t)], counted from [i]; [-1] when [t] does not occur. *)
Fixpoint indexOfFrom (i : Z) (s t : string) : Z :=
  if String.prefix t s then i
  else
    match s with
    | EmptyString => (-1)%Z
    | String _ r => indexOfFrom (i + 1)%Z r t
    end.

Definition indexOf (s t : string) : Z := indexOfFrom 0%Z s t.

(** [s.slice(start, end)] for [0 <= start] and [0 <= end]. *)
Definition slice (s : string) (start stop : Z) : string :=
  String.substring (Z.to_nat start) (Z.to_nat (stop - start)) s.

Definition len (s : string) : Z := Z.of_nat (String.length s).

(** [s.replace(pat, rep)] for a string pattern: the first occurrence only. *)
Fixpoint replaceFirst (pat rep s : string) : string :=
  if String.prefix pat s then
    String.append rep
      (String.substring (String.length pat) (String.length s - String.length pat) s)
  else
    match s with
    | EmptyString => EmptyString
    | String c r => String c (replaceFirst pat rep r)
    end.

End JS.

(* ================================================================== *)
(** ** The run-time platform *)
(* ================================================================== *)

(** Outcome of [fetch(url)] followed by [response.text()]: an exception
    with its message, or a response with its [ok] flag, its status code as
    it prints, and its body. *)
Inductive HttpOutcome :=
| Threw (message : string)
| Responded (ok : bool) (status : string) (body : string).

(** A parsed [URL]. *)
Record URL := mkURL { href : string; hostname : string; pathname : string }.

(** One match of a regular expression: its position, the matched text and
    the first two capture groups. *)
Record ReMatch := mkReMatch {
  m_index : nat;
  m_0 : string;
  m_1 : option string;
  m_2 : option string
}.

(** The regular expressions of the sources, by where they occur. *)
Inductive RegExp :=
| ReSignal (category : string) (n : nat)
| ReEmail
| ReAgency (n : nat)
| RePersonText (n : nat)
| ReNameShape (maxExtra : nat)
| ReRelevantTitle (n : nat)
| ReKeyPeople
| ReWikiLink
| ReParenTitle.

(** A [form] element as the extractor queries it. *)
Record FormEl := mkFormEl {
  f_action : option string;
  f_hasEmailField : bool;
  f_hasTextarea : bool
}.

(** A team-card element as the extractor queries it. *)
Record CardEl := mkCardEl {
  c_text : string;
  c_heading : string;
  c_title : string
}.

Record Platform := mkPlatform {
  (** what [fetch] and [response.text()] do with a URL, given the URLs
      handed to [fetch] so far *)
  httpGet : list string -> string -> HttpOutcome;
  (** [new URL(s)] and [new URL(s, base)]; [None] when it throws *)
  newURL : string -> option string -> option URL;
  (** [URLSearchParams(...).toString()] *)
  urlSearchParams : list (string * string) -> string;
  (** all matches of a regular expression in a text, in order *)
  reMatchAll : RegExp -> string -> list ReMatch;
  (** body text of a fetched page once script and style are removed,
      white space collapsed and trimmed *)
  pageText : string -> string;
  (** [href] of every link of a page *)
  pageLinks : string -> list string;
  (** [$('body').text()] *)
  bodyText : string -> string;
  (** [href] of every mail link *)
  mailtoHrefs : string -> list string;
  (** the [form] elements of a page *)
  formEls : string -> list FormEl;
  (** the elements a selector finds in a page *)
  selectCards : string -> string -> list CardEl;
  (** the page source the biography service returns for a reference URL,
      [None] when the lookup throws or returns no page *)
  wikiContent : string -> option string
}.

(* ================================================================== *)
(** ** contacts/linkedin.ts *)
(* ================================================================== *)

Module LinkedIn.

Definition REGIONS : list (string * string) :=
  [ ("denmark", "Denmark");
    ("nordic", "Denmark OR Sweden OR Norway OR Finland");
    ("europe", "Europe");
    ("global", "") ].

Fixpoint lookup (k : string) (t : list (string * string)) : option string :=
  match t with
  | [] => None
  | (k', v) :: r => if String.eqb k' k then Some v else lookup k r
  end.

(** What [REGIONS[k]] finds beyond its four keys. The object literal
    inherits from [Object.prototype]; the key looked up is in lower case, and
    of the inherited names only these two are. Their values are objects, so
    truthy, and are given here as they print when appended to the query:
    the constructor function (as Node prints a native function) and the
    prototype object. *)
Definition INHERITED : list (string * string) :=
  [ ("constructor", "function Object() { [native code] }");
    ("__proto__", "[object Object]") ].

Section WithPlatform.
Context (P : Platform).

Definition generateLinkedInSearchUrl
  (companyName : string) (title region : option string) : string :=
  let keywords :=
    match title with
    | Some t => if JS.truthy t then [t] else []
    | None => []
    end in
  let keywords := JS.push keywords companyName in
  let regionFilter :=
    match region with
    | Some r =>
        if JS.truthy r then
          match lookup (JS.toLowerCase r) REGIONS with
          | Some v => v
          | None =>
              match lookup (JS.toLowerCase r) INHERITED with
              | Some v => v
              | None => ""
              end
          end
        else ""
    | None => ""
    end in
  let params :=
    [ ("keywords", JS.joinSpace keywords); ("origin", "GLOBAL_SEARCH_HEADER") ] in
  let params :=
    if JS.truthy regionFilter then JS.push params ("geoUrn", regionFilter)
    else params in
  String.append "https://www.linkedin.com/search/results/people/?"
    (urlSearchParams P params).

Definition generatePersonLinkedInUrl (personName companyName : string) : string :=
  let keywords := String.append personName (String " " companyName) in
  String.append "https://www.linkedin.com/search/results/people/?"
    (urlSearchParams P [ ("keywords", keywords); ("origin", "GLOBAL_SEARCH_HEADER") ]).

End WithPlatform.

End LinkedIn.

(* ================================================================== *)
(** ** qualification/crawler.ts *)
(* ================================================================== *)

Module Crawler.

Definition RELEVANT_PATHS : list string :=
  [ "/"; "/about"; "/about-us"; "/brand"; "/community"; "/sustainability";
    "/partnerships"; "/partners"; "/sponsorship"; "/sponsorships"; "/press";
    "/news"; "/newsroom"; "/media"; "/contact"; "/team"; "/leadership";
    "/our-team"; "/about/team" ].

Record CrawlResult := mkCrawlResult {
  url : string;
  html : string;
  text : string;
  links : list string;
  success : bool;
  error : option string
}.

(** A computation that issues requests: it extends the log of the URLs
    handed to [fetch] so far. *)
Definition Req (A : Type) : Type := list string -> A * list string.

Definition ret {A} (a : A) : Req A := fun log => (a, log).

Definition bind {A B} (m : Req A) (k : A -> Req B) : Req B :=
  fun log => let (a, log') := m log in k a log'.

Notation "x <- m ;; k" := (bind m (fun x => k))
  (at level 61, m at next level, right associativity).

(** The result and the requests of a computation started with an empty log. *)
Definition run {A} (m : Req A) : A * list string := m [].

Definition failed (u message : string) : CrawlResult :=
  mkCrawlResult u "" "" [] false (Some message).

Section WithPlatform.
Context (P : Platform).

(** [fetchPage]: one request, and never an exception. *)
Definition fetchPage (u : string) : Req CrawlResult :=
  fun log =>
    let r :=
      match httpGet P log u with
      | Threw message => failed u message
      | Responded ok status body =>
          if negb ok then failed u (String.append "HTTP " status)
          else mkCrawlResult u body (pageText P body)
                 (filter JS.truthy (pageLinks P body)) true None
      end in
    (r, log ++ [u]).

Definition normalizeUrl (baseUrl path : string) : string :=
  if JS.startsWith path "http://" || JS.startsWith path "https://" then path
  else
    match newURL P baseUrl None with
    | None => ""
    | Some base =>
        match newURL P path (Some (href base)) with
        | None => ""
        | Some u => href u
        end
    end.

(** [s.replace(/\/$/, '')]. *)
Fixpoint stripTrailingSlash (s : string) : string :=
  match s with
  | EmptyString => EmptyString
  | String c r =>
      match r with
      | EmptyString => if Ascii.eqb c "/" then EmptyString else s
      | _ => String c (stripTrailingSlash r)
      end
  end.

Definition normalizeBase (baseUrl : string) : string :=
  let normalizedBase :=
    if negb (JS.startsWith baseUrl "http") then String.append "https://" baseUrl
    else baseUrl in
  stripTrailingSlash normalizedBase.

(** The body of the loop over the homepage links. *)
Definition addLinkPaths (normalizedBase : string) (foundPaths : list string)
  (link : string) : list string :=
  let normalized := normalizeUrl normalizedBase link in
  if negb (JS.truthy normalized) then foundPaths
  else
    match newURL P normalized None with
    | None => foundPaths
    | Some linkUrl =>
        match newURL P normalizedBase None with
        | None => foundPaths
        | Some b =>
            if negb (String.eqb (hostname linkUrl) (hostname b)) then foundPaths
            else
              let path := JS.toLowerCase (pathname linkUrl) in
              fold_left
                (fun fp relevantPath =>
                   if String.eqb path relevantPath
                      || String.eqb path (String.append relevantPath "/")
                   then JS.setAdd fp (pathname linkUrl)
                   else fp)
                RELEVANT_PATHS foundPaths
        end
    end.

(** The set of paths to try: those linked from the homepage, then the
    allow-list without ["/"]. *)
Definition findPaths (normalizedBase : string) (homepage : CrawlResult)
  : list string :=
  let foundPaths := fold_left (addLinkPaths normalizedBase) (links homepage) [] in
  fold_left
    (fun fp path => if negb (String.eqb path "/") then JS.setAdd fp path else fp)
    RELEVANT_PATHS foundPaths.

(** The loop over [pathsToFetch]. *)
Fixpoint fetchFound (normalizedBase : string) (paths : list string)
  (results : list (string * CrawlResult)) : Req (list (string * CrawlResult)) :=
  match paths with
  | [] => ret results
  | path :: rest =>
      result <- fetchPage (String.append normalizedBase path) ;;
      fetchFound normalizedBase rest
        (if success result then JS.mapSet results path result else results)
  end.

Definition crawlCompanyWebsite (baseUrl : string)
  : Req (list (string * CrawlResult)) :=
  let normalizedBase := normalizeBase baseUrl in
  homepage <- fetchPage normalizedBase ;;
  let results := JS.mapSet [] "/" homepage in
  if negb (success homepage) then ret results
  else
    let foundPaths := findPaths normalizedBase homepage in
    let pathsToFetch := firstn 10 foundPaths in
    fetchFound normalizedBase pathsToFetch results.

End WithPlatform.

End Crawler.

(* ================================================================== *)
(** ** qualification/analyzer.ts *)
(* ================================================================== *)

Module Analyzer.

Record SignalMatch := mkSignal {
  type : string;
  text : string;
  score : Z
}.

(** Category, its patterns, its weight; in the order of the table. *)
Definition SIGNAL_PATTERNS : list (string * list RegExp * Z) :=
  [ ("sport", [ReSignal "sport" 0], 15%Z);
    ("youth", [ReSignal "youth" 0], 20%Z);
    ("culture", [ReSignal "culture" 0], 20%Z);
    ("community", [ReSignal "community" 0], 15%Z);
    ("partnership", [ReSignal "partnership" 0], 25%Z);
    ("previous_sponsorship", [ReSignal "previous_sponsorship" 0], 30%Z);
    ("events", [ReSignal "events" 0], 10%Z) ].

Section WithPlatform.
Context (P : Platform).

(** The snippet around the first match of a pattern. *)
Definition contextOf (txt firstMatch : string) : string :=
  let index := JS.indexOf (JS.toLowerCase txt) (JS.toLowerCase firstMatch) in
  let start := Z.max 0 (index - 50) in
  let stop := Z.min (JS.len txt) (index + JS.len firstMatch + 50) in
  JS.trim (JS.collapseSpaces false (JS.slice txt start stop)).

(** The inner loop of [findSignals]: the first pattern of a category that
    matches gives the signal. *)
Fixpoint firstPatternSignal (ty : string) (sc : Z) (patterns : list RegExp)
  (txt : string) : option SignalMatch :=
  match patterns with
  | [] => None
  | pattern :: rest =>
      match reMatchAll P pattern txt with
      | m :: _ =>
          Some (mkSignal ty
                  (String.append "..." (String.append (contextOf txt (m_0 m)) "..."))
                  sc)
      | [] => firstPatternSignal ty sc rest txt
      end
  end.

Definition findSignals (txt : string) : list SignalMatch :=
  fold_left
    (fun signals entry =>
       match entry with
       | (ty, patterns, sc) =>
           match firstPatternSignal ty sc patterns txt with
           | Some s => JS.push signals s
           | None => signals
           end
       end)
    SIGNAL_PATTERNS [].

(** The loop over the signals of one page. *)
Definition addSignals (path : string) (st : list SignalMatch * list string)
  (signals : list SignalMatch) : list SignalMatch * list string :=
  fold_left
    (fun (st : list SignalMatch * list string) signal =>
       let (allSignals, seenTypes) := st in
       if negb (JS.setHas seenTypes (type signal)) then
         (JS.push allSignals
            (mkSignal (type signal)
               (String.append "[" (String.append path
                  (String.append "] " (text signal))))
               (score signal)),
          JS.setAdd seenTypes (type signal))
       else st)
    signals st.

Definition analyzePageContent
  (crawlResults : list (string * Crawler.CrawlResult)) : list SignalMatch :=
  fst
    (fold_left
       (fun st entry =>
          let (path, result) := entry : string * Crawler.CrawlResult in
          if negb (Crawler.success result) then st
          else addSignals path st (findSignals (Crawler.text result)))
       crawlResults (([], []) : list SignalMatch * list string)).

Definition calculateQualificationScore (signals : list SignalMatch) : Z :=
  fold_left (fun total signal => (total + score signal)%Z) signals 0%Z.

End WithPlatform.

End Analyzer.

(* ================================================================== *)
(** ** contacts/extractor.ts *)
(* ================================================================== *)

Module Contacts.

Inductive PathType := T_email | T_form | T_agency | T_press.

Record ExtractedContact := mkContact {
  pathType : PathType;
  value : string;
  emailType : option string;
  confidenceScore : Z;
  sourceUrl : string
}.

(** Keyword and confidence, in the order of the table. *)
Definition EMAIL_PRIORITY : list (string * Z) :=
  [ ("partnerships", 100); ("partner", 95); ("sponsorship", 95);
    ("sponsor", 90); ("marketing", 80); ("brand", 75); ("press", 60);
    ("media", 60); ("pr", 55); ("info", 40); ("contact", 35);
    ("hello", 30) ]%Z.

Definition blacklist : list string :=
  [ "example.com"; "email.com"; "domain.com"; "test.com" ].

Definition isValidEmail (email : string) : bool :=
  match JS.splitSecond "@" email with
  | None => false
  | Some domain =>
      if negb (JS.truthy domain) then false
      else if existsb (fun b => JS.includes domain b) blacklist then false
      else if (100 <? String.length email)%nat then false
      else true
  end.

(** The loop of [createEmailContact] over the entries of the table, left
    at the first keyword the prefix includes. *)
Fixpoint classify (prefix : string) (entries : list (string * Z))
  (dflt : string * Z) : string * Z :=
  match entries with
  | [] => dflt
  | (ty, sc) :: rest =>
      if JS.includes prefix ty then (ty, sc) else classify prefix rest dflt
  end.

Definition createEmailContact (email sourceUrl : string) : ExtractedContact :=
  let prefix := JS.toLowerCase (JS.splitHead "@" email) in
  let (emailType, confidenceScore) :=
    classify prefix EMAIL_PRIORITY ("general", 20%Z) in
  mkContact T_email email (Some emailType) confidenceScore sourceUrl.

Section WithPlatform.
Context (P : Platform).

Definition extractEmails (html sourceUrl : string) : list ExtractedContact :=
  let contacts :=
    fold_left
      (fun contacts href =>
         if JS.truthy href then
           let email :=
             JS.toLowerCase (JS.splitHead "?" (JS.replaceFirst "mailto:" "" href)) in
           if isValidEmail email
           then JS.push contacts (createEmailContact email sourceUrl)
           else contacts
         else contacts)
      (mailtoHrefs P html) [] in
  let matches := map m_0 (reMatchAll P ReEmail (bodyText P html)) in
  fold_left
    (fun contacts email =>
       let lowerEmail := JS.toLowerCase email in
       if isValidEmail lowerEmail then
         match find (fun c => String.eqb (value c) lowerEmail) contacts with
         | Some _ => contacts
         | None => JS.push contacts (createEmailContact lowerEmail sourceUrl)
         end
       else contacts)
    matches contacts.

Definition extractContactForms (html baseUrl sourceUrl : string)
  : list ExtractedContact :=
  fold_left
    (fun contacts el =>
       let action := match f_action el with Some a => a | None => "" end in
       if f_hasEmailField el || f_hasTextarea el then
         let formUrl :=
           if JS.truthy action && negb (JS.startsWith action "javascript:") then
             match newURL P action (Some baseUrl) with
             | Some u => href u
             | None => sourceUrl
             end
           else sourceUrl in
         JS.push contacts (mkContact T_form formUrl None 40%Z sourceUrl)
       else contacts)
    (formEls P html) [].

Definition extractAgencyMentions (text sourceUrl : string)
  : list ExtractedContact :=
  fold_left
    (fun contacts pattern =>
       fold_left
         (fun contacts m =>
            match m_1 m with
            | Some g =>
                if JS.truthy g && (3 <? String.length g)%nat
                   && (String.length g <? 50)%nat
                then JS.push contacts (mkContact T_agency (JS.trim g) None 50%Z sourceUrl)
                else contacts
            | None => contacts
            end)
         (reMatchAll P pattern text) contacts)
    [ReAgency 0; ReAgency 1] [].

(** The loop that adds the contacts of one extractor, skipping the values
    already seen. *)
Definition addUnseen (st : list ExtractedContact * list string)
  (found : list ExtractedContact) : list ExtractedContact * list string :=
  fold_left
    (fun (st : list ExtractedContact * list string) contact =>
       let (allContacts, seenValues) := st in
       if negb (JS.setHas seenValues (value contact)) then
         (JS.push allContacts contact, JS.setAdd seenValues (value contact))
       else st)
    found st.

Definition byConfidence (a b : ExtractedContact) : Z :=
  (confidenceScore b - confidenceScore a)%Z.

Definition extractContacts
  (crawlResults : list (string * Crawler.CrawlResult)) (baseUrl : string)
  : list ExtractedContact :=
  let allContacts :=
    fst
      (fold_left
         (fun (st : list ExtractedContact * list string) entry =>
            let (path, result) := entry : string * Crawler.CrawlResult in
            if negb (Crawler.success result) then st
            else
              let st :=
                addUnseen st
                  (extractEmails (Crawler.html result) (Crawler.url result)) in
              let st :=
                if JS.includes path "contact" || JS.includes path "partner"
                   || String.eqb path "/"
                then
                  addUnseen st
                    (extractContactForms (Crawler.html result) baseUrl
                       (Crawler.url result))
                else st in
              addUnseen st
                (extractAgencyMentions (Crawler.text result) (Crawler.url result)))
         crawlResults (([], []) : list ExtractedContact * list string)) in
  JS.sort byConfidence allContacts.

End WithPlatform.

End Contacts.

(* ================================================================== *)
(** ** people/extractor.ts *)
(* ================================================================== *)

Module People.

Record ExtractedPerson := mkPerson {
  name : string;
  jobTitle : option string;
  department : option string;
  sourceUrl : string;
  linkedinSearchUrl : string
}.

Definition RELEVANT_DEPARTMENTS : list (string * list string) :=
  [ ("brand", ["brand"; "branding"]);
    ("partnerships", ["partnership"; "partner"; "sponsorship"; "sponsor"]);
    ("marketing", ["marketing"; "market"; "growth"]);
    ("sports", ["sport"; "sports"; "athletic"]);
    ("csr", ["csr"; "sustainability"; "social responsibility"; "impact"]);
    ("community", ["community"; "communities"; "engagement"]);
    ("communications", ["communications"; "pr"; "press"; "media"]) ].

Definition classifyDepartment (title : string) : option string :=
  let lowerTitle := JS.toLowerCase title in
  option_map fst
    (find (fun entry : string * list string =>
             existsb (fun keyword => JS.includes lowerTitle keyword) (snd entry))
       RELEVANT_DEPARTMENTS).

(** The selectors of the team cards (the quotes inside the attribute
    selectors are left out). *)
Definition selectors : list string :=
  [ ".team-member"; ".person"; ".staff"; ".executive"; ".leadership-card";
    "[class*=team]"; "[class*=person]"; "[class*=member]" ].

(** [x || null] on a string. *)
Definition orNull (s : string) : option string :=
  if JS.truthy s then Some s else None.

Section WithPlatform.
Context (P : Platform).

(** [pattern.test(s)]. *)
Definition test (pattern : RegExp) (s : string) : bool :=
  match reMatchAll P pattern s with [] => false | _ => true end.

Definition isRelevantTitle (title : string) : bool :=
  existsb (fun n => test (ReRelevantTitle n) title) [0; 1; 2; 3]%nat.

Definition extractPeopleFromTeamPage (html sourceUrl companyName : string)
  : list ExtractedPerson :=
  fold_left
    (fun people selector =>
       fold_left
         (fun people el =>
            let text := c_text el in
            let name0 := JS.trim (c_heading el) in
            let jobTitle0 := JS.trim (c_title el) in
            let '(name, jobTitle) :=
              if negb (JS.truthy name0) && (String.length text <? 200)%nat then
                match filter JS.truthy (map JS.trim (JS.split "010" text)) with
                | [] => (name0, jobTitle0)
                | l0 :: rest => (l0, hd "" rest)
                end
              else (name0, jobTitle0) in
            if JS.truthy name && test (ReNameShape 3) name then
              let department := classifyDepartment jobTitle in
              if isRelevantTitle jobTitle
                 || match department with Some _ => true | None => false end
              then
                JS.push people
                  (mkPerson name (orNull jobTitle) department sourceUrl
                     (LinkedIn.generatePersonLinkedInUrl P name companyName))
              else people
            else people)
         (selectCards P selector html) people)
    selectors [].

(** Group 1 takes part in every match of both patterns. *)
Definition extractPeopleFromText (text sourceUrl companyName : string)
  : list ExtractedPerson :=
  fold_left
    (fun people pattern =>
       fold_left
         (fun people m =>
            let name := JS.trim (match m_1 m with Some g => g | None => "" end) in
            let jobTitle :=
              match m_2 m with
              | Some g => orNull (JS.trim g)
              | None => None
              end in
            if JS.truthy name && test (ReNameShape 2) name then
              let department :=
                match jobTitle with
                | Some t => classifyDepartment t
                | None => None
                end in
              match find (fun p => String.eqb (People.name p) name) people with
              | Some _ => people
              | None =>
                  JS.push people
                    (mkPerson name jobTitle department sourceUrl
                       (LinkedIn.generatePersonLinkedInUrl P name companyName))
              end
            else people)
         (reMatchAll P pattern text) people)
    [RePersonText 0; RePersonText 1] [].

(** The request to the biography source and the reading of its answer are
    [wikiContent]; any failure there gives no people. *)
Definition extractPeopleFromWikipedia (wikipediaUrl companyName : string)
  : list ExtractedPerson :=
  match wikiContent P wikipediaUrl with
  | None => []
  | Some content =>
      match reMatchAll P ReKeyPeople content with
      | [] => []
      | keyPeopleMatch :: _ =>
          let keyPeopleText :=
            match m_1 keyPeopleMatch with Some g => g | None => "" end in
          fold_left
            (fun people m =>
               let g :=
                 match m_2 m with
                 | Some g2 =>
                     if JS.truthy g2 then g2
                     else match m_1 m with Some g1 => g1 | None => "" end
                 | None => match m_1 m with Some g1 => g1 | None => "" end
                 end in
               let name := JS.trim g in
               let from := (Z.of_nat (m_index m) + JS.len (m_0 m))%Z in
               let afterLink := JS.slice keyPeopleText from (from + 100)%Z in
               let jobTitle :=
                 match reMatchAll P ReParenTitle afterLink with
                 | titleMatch :: _ =>
                     Some (JS.trim
                             (match m_1 titleMatch with Some t => t | None => "" end))
                 | [] => None
                 end in
               if JS.truthy name && test (ReNameShape 2) name then
                 JS.push people
                   (mkPerson name jobTitle
                      (match jobTitle with
                       | Some t => if JS.truthy t then classifyDepartment t else None
                       | None => None
                       end)
                      wikipediaUrl
                      (LinkedIn.generatePersonLinkedInUrl P name companyName))
               else people)
            (reMatchAll P ReWikiLink keyPeopleText) []
      end
  end.

(** The loop that adds the people found on one page, skipping the
    lower-cased names already seen. *)
Definition addUnseen (st : list ExtractedPerson * list string)
  (extracted : list ExtractedPerson) : list ExtractedPerson * list string :=
  fold_left
    (fun (st : list ExtractedPerson * list string) person =>
       let (allPeople, seenNames) := st in
       if negb (JS.setHas seenNames (JS.toLowerCase (name person))) then
         (JS.push allPeople person,
          JS.setAdd seenNames (JS.toLowerCase (name person)))
       else st)
    extracted st.

Definition extractPeople
  (crawlResults : list (string * Crawler.CrawlResult)) (companyName : string)
  : list ExtractedPerson :=
  fst
    (fold_left
       (fun (st : list ExtractedPerson * list string) entry =>
          let (path, result) := entry : string * Crawler.CrawlResult in
          if negb (Crawler.success result) then st
          else
            let isTeamPage :=
              JS.includes path "team" || JS.includes path "leadership"
              || JS.includes path "about" in
            let extracted :=
              if isTeamPage then
                extractPeopleFromTeamPage (Crawler.html result)
                  (Crawler.url result) companyName
              else [] in
            let fromText :=
              extractPeopleFromText (Crawler.text result) (Crawler.url result)
                companyName in
            addUnseen st (extracted ++ fromText))
       crawlResults (([], []) : list ExtractedPerson * list string)).

End WithPlatform.

End People.

(* ================================================================== *)
(** ** index.ts: the people step of the [qualify] command *)
(* ================================================================== *)

Module Cli.

(** The list handed to [savePeople]: the people of the crawl, followed by
    those of the biography source when the company has a reference URL. *)
Definition qualifyPeople (P : Platform)
  (crawlResults : list (string * Crawler.CrawlResult))
  (companyName : string) (wikipedia_url : option string)
  : list People.ExtractedPerson :=
  let people := People.extractPeople P crawlResults companyName in
  match wikipedia_url with
  | Some u =>
      if JS.truthy u
      then people ++ People.extractPeopleFromWikipedia P u companyName
      else people
  | None => people
  end.

End Cli.

(* ================================================================== *)
(** ** ranking/pathSelector.ts *)
(* ================================================================== *)

Module PathSelector.

Inductive SelectedType := named_email | inbox | agency | form | linkedin.

Record SelectedPath := mkPath {
  type : SelectedType;
  value : string;
  personName : option string;
  personTitle : option string;
  score : Z;
  sourceUrl : option string
}.

Record PathSelection := mkSelection {
  primary : SelectedPath;
  backup : option SelectedPath;
  linkedinUrls : list (string * string)
}.

(** [contact.emailType === s]. *)
Definition emailTypeIs (c : Contacts.ExtractedContact) (s : string) : bool :=
  match Contacts.emailType c with
  | Some t => String.eqb t s
  | None => false
  end.

Definition isEmail (c : Contacts.ExtractedContact) : bool :=
  match Contacts.pathType c with Contacts.T_email => true | _ => false end.

(** The predicate handed to [contacts.find] for one person. *)
Definition mightBelongTo (person : People.ExtractedPerson)
  (c : Contacts.ExtractedContact) : bool :=
  if negb (isEmail c) then false
  else
    let emailPrefix := JS.toLowerCase (JS.splitHead "@" (Contacts.value c)) in
    let nameParts := JS.split " " (JS.toLowerCase (People.name person)) in
    existsb
      (fun part => JS.includes emailPrefix part || JS.includes part emailPrefix)
      nameParts.

(** [person.jobTitle || undefined]. *)
Definition titleOrUndefined (t : option string) : option string :=
  match t with
  | Some s => if JS.truthy s then Some s else None
  | None => None
  end.

Definition namedEmails (contacts : list Contacts.ExtractedContact)
  (rankedPaths : list SelectedPath) (person : People.ExtractedPerson)
  : list SelectedPath :=
  match find (mightBelongTo person) contacts with
  | Some personalEmail =>
      JS.push rankedPaths
        (mkPath named_email (Contacts.value personalEmail)
           (Some (People.name person))
           (titleOrUndefined (People.jobTitle person))
           100%Z (Some (Contacts.sourceUrl personalEmail)))
  | None => rankedPaths
  end.

Definition plain (t : SelectedType) (sc : Z) (c : Contacts.ExtractedContact)
  : SelectedPath :=
  mkPath t (Contacts.value c) None None sc (Some (Contacts.sourceUrl c)).

Definition departmentInboxes (rankedPaths : list SelectedPath)
  (contact : Contacts.ExtractedContact) : list SelectedPath :=
  if negb (isEmail contact) then rankedPaths
  else
    let isPartnershipEmail :=
      emailTypeIs contact "partnerships" || emailTypeIs contact "partner"
      || emailTypeIs contact "sponsorship" || emailTypeIs contact "sponsor" in
    let isMarketingEmail :=
      emailTypeIs contact "marketing" || emailTypeIs contact "brand" in
    if isPartnershipEmail then JS.push rankedPaths (plain inbox 75%Z contact)
    else if isMarketingEmail then JS.push rankedPaths (plain inbox 70%Z contact)
    else rankedPaths.

Definition pressAgencies (rankedPaths : list SelectedPath)
  (contact : Contacts.ExtractedContact) : list SelectedPath :=
  match Contacts.pathType contact with
  | Contacts.T_agency => JS.push rankedPaths (plain agency 50%Z contact)
  | Contacts.T_email =>
      if emailTypeIs contact "press" || emailTypeIs contact "media"
      then JS.push rankedPaths (plain agency 45%Z contact)
      else rankedPaths
  | _ => rankedPaths
  end.

Definition contactForms (rankedPaths : list SelectedPath)
  (contact : Contacts.ExtractedContact) : list SelectedPath :=
  match Contacts.pathType contact with
  | Contacts.T_form => JS.push rankedPaths (plain form 40%Z contact)
  | _ => rankedPaths
  end.

Definition genericEmails (rankedPaths : list SelectedPath)
  (contact : Contacts.ExtractedContact) : list SelectedPath :=
  if isEmail contact
     && match find (fun p => String.eqb (value p) (Contacts.value contact))
                rankedPaths with
        | Some _ => false
        | None => true
        end
  then JS.push rankedPaths (plain inbox 30%Z contact)
  else rankedPaths.

Definition byScore (a b : SelectedPath) : Z := (score b - score a)%Z.

Section WithPlatform.
Context (P : Platform).

(** The candidate list before it is sorted. *)
Definition candidates (contacts : list Contacts.ExtractedContact)
  (people : list People.ExtractedPerson) (companyName : string)
  (region : option string) : list SelectedPath :=
  let rankedPaths := fold_left (namedEmails contacts) people [] in
  let rankedPaths := fold_left departmentInboxes contacts rankedPaths in
  let rankedPaths := fold_left pressAgencies contacts rankedPaths in
  let rankedPaths := fold_left contactForms contacts rankedPaths in
  let rankedPaths := fold_left genericEmails contacts rankedPaths in
  let linkedinUrl :=
    LinkedIn.generateLinkedInSearchUrl P companyName
      (Some "Brand Partnerships") region in
  JS.push rankedPaths (mkPath linkedin linkedinUrl None None 25%Z None).

(** [rankedPaths] once sorted by score. *)
Definition ranked (contacts : list Contacts.ExtractedContact)
  (people : list People.ExtractedPerson) (companyName : string)
  (region : option string) : list SelectedPath :=
  JS.sort byScore (candidates contacts people companyName region).

(** [selectBestPaths], on the contacts and the people read from the store
    for the company. *)
Definition selectBestPaths (contacts : list Contacts.ExtractedContact)
  (people : list People.ExtractedPerson) (companyName : string)
  (region : option string) : option PathSelection :=
  match ranked contacts people companyName region with
  | [] => None
  | first :: rest =>
      let linkedinUrls :=
        map (fun title =>
               (title,
                LinkedIn.generateLinkedInSearchUrl P companyName (Some title) region))
          [ "Brand Partnerships"; "Sports Marketing"; "Sponsorship Manager";
            "Marketing Director" ] in
      Some (mkSelection first (hd_error rest) linkedinUrls)
  end.

End WithPlatform.

End PathSelector.

(* ================================================================== *)
(** ** The rows written to and read from the store *)
(* ================================================================== *)

(** The store itself is outside the model. What is modelled is the list of
    rows a [save] function inserts, in order, and the mapping a [get]
    function applies to the rows its query returns. *)
Module Store.

Record SignalRow := mkSignalRow {
  signal_type : string;
  signal_text : string
}.

(** analyzer.ts, [saveSignals]: one row per signal, with its type and its
    text. *)
Definition saveSignals (signals : list Analyzer.SignalMatch) : list SignalRow :=
  map (fun signal => mkSignalRow (Analyzer.type signal) (Analyzer.text signal))
    signals.

(** [SIGNAL_PATTERNS[t]?.score || 0]. *)
Definition scoreOfType (t : string) : Z :=
  match find (fun entry : string * list RegExp * Z => String.eqb (fst (fst entry)) t)
          Analyzer.SIGNAL_PATTERNS with
  | Some entry => snd entry
  | None => 0%Z
  end.

(** analyzer.ts, [getCompanySignals]: the score is looked up again from the
    type. *)
Definition getCompanySignals (rows : list SignalRow) : list Analyzer.SignalMatch :=
  map (fun row =>
         Analyzer.mkSignal (signal_type row) (signal_text row)
           (scoreOfType (signal_type row)))
    rows.

Record ContactRow := mkContactRow {
  path_type : Contacts.PathType;
  value : string;
  email_type : option string;
  confidence_score : Z;
  source_url : string;
  is_primary : Z
}.

(** [x || null] and [x || undefined] on an optional string. *)
Definition orAbsent (x : option string) : option string :=
  match x with
  | Some s => if JS.truthy s then Some s else None
  | None => None
  end.

(** extractor.ts, [saveContacts]: the body of the [forEach], from a given
    index on; the first contact is flagged primary. *)
Fixpoint saveContactsFrom (index : nat) (contacts : list Contacts.ExtractedContact)
  : list ContactRow :=
  match contacts with
  | [] => []
  | contact :: rest =>
      mkContactRow (Contacts.pathType contact) (Contacts.value contact)
        (orAbsent (Contacts.emailType contact))
        (Contacts.confidenceScore contact) (Contacts.sourceUrl contact)
        (if Nat.eqb index 0 then 1%Z else 0%Z)
      :: saveContactsFrom (S index) rest
  end.

Definition saveContacts (contacts : list Contacts.ExtractedContact)
  : list ContactRow :=
  saveContactsFrom 0 contacts.

(** extractor.ts, [getCompanyContacts]: the mapping of the rows read. *)
Definition getCompanyContacts (rows : list ContactRow)
  : list Contacts.ExtractedContact :=
  map (fun row =>
         Contacts.mkContact (path_type row) (value row) (orAbsent (email_type row))
           (confidence_score row) (source_url row))
    rows.

Definition setPrimary (flag : Z) (row : ContactRow) : ContactRow :=
  mkContactRow (path_type row) (value row) (email_type row)
    (confidence_score row) (source_url row) flag.

(** pathSelector.ts, [savePathSelection], on the contact rows of the
    company: every flag is reset, then the rows whose value is that of the
    primary path are flagged, unless the primary is the LinkedIn fallback. *)
Definition savePathSelection (rows : list ContactRow)
  (selection : PathSelector.PathSelection) : list ContactRow :=
  let rows := map (setPrimary 0%Z) rows in
  match PathSelector.type (PathSelector.primary selection) with
  | PathSelector.linkedin => rows
  | _ =>
      map (fun row =>
             if String.eqb (value row)
                  (PathSelector.value (PathSelector.primary selection))
             then setPrimary 1%Z row else row)
        rows
  end.

End Store.

(* ================================================================== *)
(** ** A concrete platform for the examples *)
(* ================================================================== *)

Module Demo.

(** Enough of the query-string encoder for the examples: a space becomes
    [+], letters and digits are kept. *)
Fixpoint plus (s : string) : string :=
  match s with
  | EmptyString => EmptyString
  | String c r => String (if Ascii.eqb c " " then "+"%char else c) (plus r)
  end.

Fixpoint encode (params : list (string * string)) : string :=
  match params with
  | [] => EmptyString
  | [(k, v)] => String.append k (String "=" (plus v))
  | (k, v) :: r =>
      String.append k (String "=" (String.append (plus v) (String "&" (encode r))))
  end.

(** The homepage of [acme.test]: one link, to the site root. *)
Definition homeHtml : string := "<a href='/'>Home</a>".

Definition acmeRoot : URL := mkURL "https://acme.test/" "acme.test" "/".

(** The reference URL of the company and the source of its biography
    page, with the key-people line of the infobox. *)
Definition wikiUrl : string := "https://en.wikipedia.org/wiki/Acme".

Definition wikiText : string :=
  "{{Infobox company | key_people = [[Jane Doe]] (CEO) }}".

(** The site [acme.test] answers every request with its homepage; the site
    [down.test] is unreachable; [fetch] throws on anything else. The URL
    parser knows the root of [acme.test] and parses nothing else. The regular
    expressions give their matches on the few texts of the examples. *)
Definition platform : Platform :=
  mkPlatform
    (fun _ u =>
       if String.prefix "https://acme.test" u then Responded true "200" homeHtml
       else if String.prefix "https://down.test" u then Threw "fetch failed"
       else Threw "Invalid URL")
    (fun s base =>
       match base with
       | None =>
           if String.eqb s "https://acme.test" || String.eqb s "https://acme.test/"
           then Some acmeRoot else None
       | Some b =>
           if String.eqb b "https://acme.test/" && String.eqb s "/"
           then Some acmeRoot else None
       end)
    encode
    (fun re txt =>
       match re with
       | RePersonText 1 =>
           if String.eqb txt "led by Jane Doe"
           then [mkReMatch 0 "led by Jane Doe" (Some "Jane Doe") None] else []
       | ReNameShape _ =>
           if String.eqb txt "Jane Doe"
           then [mkReMatch 0 "Jane Doe" (Some " Doe") None] else []
       | ReKeyPeople =>
           if String.eqb txt wikiText
           then [mkReMatch 18 "| key_people = [[Jane Doe]] (CEO) }}"
                   (Some " [[Jane Doe]] (CEO) }}") None]
           else []
       | ReWikiLink =>
           if String.eqb txt " [[Jane Doe]] (CEO) }}"
           then [mkReMatch 1 "[[Jane Doe]]" (Some "Jane Doe") None] else []
       | ReParenTitle =>
           if String.eqb txt " (CEO) }}"
           then [mkReMatch 0 " (CEO)" (Some "CEO") None] else []
       | _ => []
       end)
    (fun html => if String.eqb html homeHtml then "Home" else html)
    (fun html => if String.eqb html homeHtml then ["/"] else [])
    (fun html => if String.eqb html homeHtml then "Home" else html)
    (fun _ => [])
    (fun _ => [])
    (fun _ _ => [])
    (fun u => if String.eqb u wikiUrl then Some wikiText else None).

(** The press page of the site: its text names the head of the team. *)
Definition pressPage : Crawler.CrawlResult :=
  Crawler.mkCrawlResult "https://acme.test/press" "<p>led by Jane Doe</p>"
    "led by Jane Doe" [] true None.

Definition janeDoe : People.ExtractedPerson :=
  People.mkPerson "Jane Doe" (Some "Head of Partnerships") (Some "partnerships")
    "https://acme.test/team" "https://www.linkedin.com/search/results/people/?x".

Definition mail (v ty : string) (sc : Z) : Contacts.ExtractedContact :=
  Contacts.mkContact Contacts.T_email v (Some ty) sc "https://acme.test/contact".

End Demo.

(* ================================================================== *)
(** ** A page that shows every signal *)
(* ================================================================== *)

Module Sample.

Definition text : string :=
  "Official sponsor of youth football, street culture, community events and partner programs".

Definition word (index : nat) (w : string) : ReMatch :=
  mkReMatch index w (Some w) None.

(** The matches of the seven signal patterns in [text]. *)
Definition signalMatches (category : string) : list ReMatch :=
  if String.eqb category "sport" then [word 26 "football"]
  else if String.eqb category "youth" then [word 20 "youth"]
  else if String.eqb category "culture" then [word 36 "street"; word 43 "culture"]
  else if String.eqb category "community" then [word 52 "community"]
  else if String.eqb category "partnership" then [word 9 "sponsor"; word 73 "partner"]
  else if String.eqb category "previous_sponsorship" then [word 0 "Official sponsor"]
  else if String.eqb category "events" then [word 62 "events"]
  else [].

(** The platform of the examples, with a regular-expression engine that
    also knows the signal patterns on [text]. *)
Definition platform : Platform :=
  mkPlatform
    (httpGet Demo.platform) (newURL Demo.platform) (urlSearchParams Demo.platform)
    (fun re txt =>
       match re with
       | ReSignal category 0 =>
           if String.eqb txt text then signalMatches category else []
       | _ => reMatchAll Demo.platform re txt
       end)
    (pageText Demo.platform) (pageLinks Demo.platform) (bodyText Demo.platform)
    (mailtoHrefs Demo.platform) (formEls Demo.platform)
    (selectCards Demo.platform) (wikiContent Demo.platform).

Definition page : Crawler.CrawlResult :=
  Crawler.mkCrawlResult "https://acme.test" "<p>...</p>" text [] true None.

End Sample.

(* ================================================================== *)
(** ** A platform whose [fetch] parses before it sends *)
(* ================================================================== *)

Module Checked.

(** The platform of the examples, with a [fetch] that first parses its URL
    and throws, without sending anything, when the URL does not parse. *)
Definition platform : Platform :=
  mkPlatform
    (fun log u =>
       match newURL Demo.platform u None with
       | None => Threw "Invalid URL"
       | Some _ => httpGet Demo.platform log u
       end)
    (newURL Demo.platform) (urlSearchParams Demo.platform)
    (reMatchAll Demo.platform)
    (pageText Demo.platform) (pageLinks Demo.platform) (bodyText Demo.platform)
    (mailtoHrefs Demo.platform) (formEls Demo.platform)
    (selectCards Demo.platform) (wikiContent Demo.platform).

End Checked.

(* ================================================================== *)
(** ** Predicates used by the statements *)
(* ================================================================== *)

(** The rank score each kind of candidate may carry. *)
Definition wellScored (q : PathSelector.SelectedPath) : Prop :=
  match PathSelector.type q with
  | PathSelector.named_email => PathSelector.score q = 100%Z
  | PathSelector.inbox => (PathSelector.score q <= 75)%Z
  | PathSelector.agency => (PathSelector.score q <= 50)%Z
  | PathSelector.form => PathSelector.score q = 40%Z
  | PathSelector.linkedin => PathSelector.score q = 25%Z
  end.

(** What the extraction loops maintain: the keys of the items kept are
    pairwise distinct, and each of them is in the set of keys seen. *)
Definition distinctSeen {A : Type} (key : A -> string)
  (st : list A * list string) : Prop :=
  NoDup (map key (fst st)) /\ forall a, In a (fst st) -> In (key a) (snd st).

(** The key by which people are told apart. *)
Definition lowerName (p : People.ExtractedPerson) : string :=
  JS.toLowerCase (People.name p).

(** The categories of the signal table with their weights. *)
Definition weights : list (string * Z) :=
  map (fun entry : string * list RegExp * Z => (fst (fst entry), snd entry))
    Analyzer.SIGNAL_PATTERNS.

(** The sum of a list of scores. *)
Definition total (l : list Z) : Z := fold_right Z.add 0%Z l.

(** A signal of a collection: its category and score are a row of the
    table, and its text is a snippet tagged with the key of a successful
    page of the collection. *)
Definition signalOf (crawlResults : list (string * Crawler.CrawlResult))
  (s : Analyzer.SignalMatch) : Prop :=
  In (Analyzer.type s, Analyzer.score s) weights /\
  exists path result snippet,
    In (path, result) crawlResults /\
    Crawler.success result = true /\
    Analyzer.text s =
      String.append "[" (String.append path (String.append "] "
        (String.append "..." (String.append snippet "...")))).

(** A signal found in a text: a row of the table and a snippet. *)
Definition foundSignal (s : Analyzer.SignalMatch) : Prop :=
  In (Analyzer.type s, Analyzer.score s) weights /\
  exists snippet,
    Analyzer.text s = String.append "..." (String.append snippet "...").

(** The test that keeps the successful pages of a collection. *)
Definition succeeded (entry : string * Crawler.CrawlResult) : bool :=
  Crawler.success (snd entry).

(** What every extracted contact is, by kind: an email contact is the
    classification of a valid, lower-cased address; a form has confidence
    40 and an agency 50, both without sub-type; none is of kind press. *)
Definition wellFormedContact (c : Contacts.ExtractedContact) : Prop :=
  match Contacts.pathType c with
  | Contacts.T_email =>
      c = Contacts.createEmailContact (Contacts.value c) (Contacts.sourceUrl c) /\
      Contacts.isValidEmail (Contacts.value c) = true /\
      JS.toLowerCase (Contacts.value c) = Contacts.value c
  | Contacts.T_form =>
      Contacts.emailType c = None /\ Contacts.confidenceScore c = 40%Z
  | Contacts.T_agency =>
      Contacts.emailType c = None /\ Contacts.confidenceScore c = 50%Z
  | Contacts.T_press => False
  end.

(** A contact found on a page at a given URL. *)
Definition contactAt (u : string) (c : Contacts.ExtractedContact) : Prop :=
  wellFormedContact c /\ Contacts.sourceUrl c = u.

(** A contact of a collection: well formed, and found on one of its
    successful pages. *)
Definition contactOf (crawlResults : list (string * Crawler.CrawlResult))
  (c : Contacts.ExtractedContact) : Prop :=
  wellFormedContact c /\
  exists path result,
    In (path, result) crawlResults /\
    Crawler.success result = true /\
    Contacts.sourceUrl c = Crawler.url result.

(** The title text the department of a person is classified from. *)
Definition titleText (p : People.ExtractedPerson) : string :=
  match People.jobTitle p with
  | Some t => t
  | None => EmptyString
  end.

(** A person found on a page at a given URL for a company: the name is not
    empty and passed one of the two name-shape tests, the department is the
    classification of the title, and the search link is the one generated
    for the name and the company. *)
Definition personAt (P : Platform) (companyName u : string)
  (p : People.ExtractedPerson) : Prop :=
  People.sourceUrl p = u /\
  JS.truthy (People.name p) = true /\
  (People.test P (ReNameShape 3) (People.name p) = true \/
   People.test P (ReNameShape 2) (People.name p) = true) /\
  People.department p = People.classifyDepartment (titleText p) /\
  People.linkedinSearchUrl p =
    LinkedIn.generatePersonLinkedInUrl P (People.name p) companyName.

(** A person of a collection: found on one of its successful pages. *)
Definition personOf (P : Platform) (companyName : string)
  (crawlResults : list (string * Crawler.CrawlResult))
  (p : People.ExtractedPerson) : Prop :=
  exists path result,
    In (path, result) crawlResults /\
    Crawler.success result = true /\
    personAt P companyName (Crawler.url result) p.

(** No keyword of a department occurs in a lower-cased title. *)
Definition noKeyword (lowerTitle : string) (entry : string * list string) : Prop :=
  Forall (fun keyword => JS.includes lowerTitle keyword = false) (snd entry).

(** How a stored contact is ranked: the kind and the rank score of the
    candidates the selector makes of it. *)
Inductive Ranks : Contacts.ExtractedContact -> PathSelector.SelectedType -> Z -> Prop :=
| RanksPartnership c :
    PathSelector.isEmail c = true ->
    PathSelector.emailTypeIs c "partnerships" || PathSelector.emailTypeIs c "partner"
    || PathSelector.emailTypeIs c "sponsorship" || PathSelector.emailTypeIs c "sponsor"
    = true ->
    Ranks c PathSelector.inbox 75%Z
| RanksMarketing c :
    PathSelector.isEmail c = true ->
    PathSelector.emailTypeIs c "marketing" || PathSelector.emailTypeIs c "brand" = true ->
    Ranks c PathSelector.inbox 70%Z
| RanksAgency c :
    Contacts.pathType c = Contacts.T_agency ->
    Ranks c PathSelector.agency 50%Z
| RanksPress c :
    PathSelector.isEmail c = true ->
    PathSelector.emailTypeIs c "press" || PathSelector.emailTypeIs c "media" = true ->
    Ranks c PathSelector.agency 45%Z
| RanksForm c :
    Contacts.pathType c = Contacts.T_form ->
    Ranks c PathSelector.form 40%Z
| RanksGeneric c :
    PathSelector.isEmail c = true ->
    Ranks c PathSelector.inbox 30%Z.

(** Where a candidate comes from: the first overlapping email of a stored
    person, a stored contact ranked by its kind, or the external search. *)
Definition pathFrom (P : Platform) (contacts : list Contacts.ExtractedContact)
  (people : list People.ExtractedPerson) (companyName : string)
  (region : option string) (q : PathSelector.SelectedPath) : Prop :=
  (exists person c,
      In person people /\
      In c contacts /\
      find (PathSelector.mightBelongTo person) contacts = Some c /\
      q = PathSelector.mkPath PathSelector.named_email (Contacts.value c)
            (Some (People.name person))
            (PathSelector.titleOrUndefined (People.jobTitle person))
            100%Z (Some (Contacts.sourceUrl c))) \/
  (exists c t sc,
      In c contacts /\ Ranks c t sc /\ q = PathSelector.plain t sc c) \/
  q = PathSelector.mkPath PathSelector.linkedin
        (LinkedIn.generateLinkedInSearchUrl P companyName
           (Some "Brand Partnerships") region)
        None None 25%Z None.

(** A stored contact of kind press: the selector makes no candidate of it. *)
Definition isPress (c : Contacts.ExtractedContact) : bool :=
  match Contacts.pathType c with
  | Contacts.T_press => true
  | _ => false
  end.

(** The number of rows flagged primary. *)
Definition primaryCount (rows : list Store.ContactRow) : nat :=
  List.length (filter (fun row => (Store.is_primary row =? 1)%Z) rows).

(** A candidate that stands for a contact: it carries its value and is not
    the fallback. *)
Definition standsFor (c : Contacts.ExtractedContact)
  (acc : list PathSelector.SelectedPath) : Prop :=
  exists q,
    In q acc /\ PathSelector.value q = Contacts.value c /\
    PathSelector.type q <> PathSelector.linkedin.

(** A list of candidates without the fallback. *)
Definition noFallback (acc : list PathSelector.SelectedPath) : Prop :=
  Forall (fun q => PathSelector.type q <> PathSelector.linkedin) acc.

(** The category of an entry of the signal table. *)
Definition categoryOf (entry : string * list RegExp * Z) : string :=
  fst (fst entry).

(** The signals of a text, entry by entry of the table. *)
Definition entrySignal (P : Platform) (txt : string)
  (entry : string * list RegExp * Z) : list Analyzer.SignalMatch :=
  match Analyzer.firstPatternSignal P (fst (fst entry)) (snd entry)
          (snd (fst entry)) txt with
  | Some s => [s]
  | None => []
  end.

(** The signal as the analyzer stores it, tagged with the key of its page. *)
Definition tagged (path : string) (s : Analyzer.SignalMatch) : Analyzer.SignalMatch :=
  Analyzer.mkSignal (Analyzer.type s)
    (String.append "[" (String.append path (String.append "] " (Analyzer.text s))))
    (Analyzer.score s).

(** The set of types seen holds the types of the signals kept, and no
    other. *)
Definition seenExactly (st : list Analyzer.SignalMatch * list string) : Prop :=
  forall t, In t (snd st) <-> In t (map Analyzer.type (fst st)).

(** A string of ASCII code units only: on such a string the lower-casing
    of the model is the one of the platform. *)
Fixpoint asciiOnly (s : string) : bool :=
  match s with
  | EmptyString => true
  | String c r => (nat_of_ascii c <? 128)%nat && asciiOnly r
  end.



(** A path the crawler may request beyond the homepage: lower-cased, it is
    a path of the allow-list, or such a path followed by a slash. *)
Definition allowedPath (p : string) : Prop :=
  exists relevantPath,
    In relevantPath Crawler.RELEVANT_PATHS /\
    (JS.toLowerCase p = relevantPath \/
     JS.toLowerCase p = String.append relevantPath "/").

(** What holds of the collection all along a successful crawl. *)
Definition collected (normalizedBase : string)
  (results : list (string * Crawler.CrawlResult)) : Prop :=
  (exists r rest, results = ("/", r) :: rest) /\
  NoDup (map fst results) /\
  Forall (fun e => Crawler.success (snd e) = true) results /\
  Forall (fun e => Crawler.url (snd e) = String.append normalizedBase (fst e) \/
                   (fst e = "/" /\ Crawler.url (snd e) = normalizedBase)) results.

(* ================================================================== *)
(** ** Facts about the primitives *)
(* ================================================================== *)

Section SortFacts.
Context {A : Type} (key : A -> Z).

Lemma insertBy_perm (cmp : A -> A -> Z) (x : A) (l : list A) :
  Permutation (JS.insertBy cmp x l) (x :: l).
Proof.
  induction l as [|y t IH]; simpl.
  - apply Permutation_refl.
  - destruct (cmp x y <=? 0)%Z.
    + apply Permutation_refl.
    + eapply perm_trans; [apply perm_skip, IH | apply perm_swap].
Qed.

Lemma sort_perm (cmp : A -> A -> Z) (l : list A) :
  Permutation (JS.sort cmp l) l.
Proof.
  induction l as [|x t IH]; simpl.
  - constructor.
  - eapply perm_trans; [apply insertBy_perm | apply perm_skip, IH].
Qed.

Lemma insertBy_descending (x : A) (l : list A) :
  StronglySorted (fun a b => (key b <= key a)%Z) l ->
  StronglySorted (fun a b => (key b <= key a)%Z)
    (JS.insertBy (fun a b => (key b - key a)%Z) x l).
Proof.
  induction l as [|y t IH]; intros Hs; simpl.
  - repeat constructor.
  - inversion Hs as [|? ? Ht Hy]; subst.
    destruct (key y - key x <=? 0)%Z eqn:E.
    + apply Z.leb_le in E. constructor; [exact Hs|].
      constructor; [lia|].
      eapply Forall_impl; [|exact Hy]. simpl. intros; lia.
    + apply Z.leb_gt in E. constructor; [apply IH, Ht|].
      eapply Permutation_Forall; [apply Permutation_sym, insertBy_perm|].
      constructor; [lia | exact Hy].
Qed.

Lemma sort_descending (l : list A) :
  StronglySorted (fun a b => (key b <= key a)%Z)
    (JS.sort (fun a b => (key b - key a)%Z) l).
Proof.
  induction l as [|x t IH]; simpl.
  - constructor.
  - apply insertBy_descending, IH.
Qed.

Lemma descending_before (l1 l2 : list A) (x : A) :
  StronglySorted (fun a b => (key b <= key a)%Z) (l1 ++ x :: l2) ->
  Forall (fun q => (key x <= key q)%Z) l1.
Proof.
  induction l1 as [|y t IH]; simpl; intros Hs.
  - constructor.
  - inversion Hs as [|? ? Ht Hy]; subst. constructor.
    + rewrite Forall_forall in Hy. apply Hy, in_elt.
    + apply IH, Ht.
Qed.

End SortFacts.

Lemma fold_left_invariant {A B : Type} (I : B -> Prop) (step : B -> A -> B)
  (l : list A) :
  (forall b a, I b -> I (step b a)) ->
  forall b, I b -> I (fold_left step l b).
Proof.
  intros Hstep. induction l as [|a t IH]; simpl; intros b Hb.
  - exact Hb.
  - apply IH, Hstep, Hb.
Qed.

Lemma fold_left_reaches {A B : Type} (I R : B -> Prop) (step : B -> A -> B)
  (a : A) (l : list A) :
  (forall b x, I b -> I (step b x)) ->
  (forall b, I b -> R (step b a)) ->
  (forall b x, R b -> R (step b x)) ->
  In a l ->
  forall b, I b -> R (fold_left step l b).
Proof.
  intros HI Hnew Hkeep. induction l as [|x t IH]; [contradiction|].
  intros [<-|Hin] b Hb; simpl.
  - apply (fold_left_invariant R); [exact Hkeep | now apply Hnew].
  - apply IH; [exact Hin | now apply HI].
Qed.

Lemma Forall_push {A : Type} (Q : A -> Prop) (l : list A) (x : A) :
  Forall Q l -> Q x -> Forall Q (JS.push l x).
Proof.
  intros Hl Hx. unfold JS.push. apply Forall_app. split; [exact Hl|].
  constructor; [exact Hx | constructor].
Qed.

Lemma In_push {A : Type} (l : list A) (x y : A) :
  In y (JS.push l x) <-> In y l \/ y = x.
Proof.
  unfold JS.push. rewrite in_app_iff. simpl. intuition congruence.
Qed.

Lemma find_first {A : Type} (f : A -> bool) (pre post : list A) (c : A) :
  (forall x, In x pre -> f x = false) -> f c = true ->
  find f (pre ++ c :: post) = Some c.
Proof.
  induction pre as [|x t IH]; simpl; intros Hpre Hc.
  - now rewrite Hc.
  - rewrite (Hpre x (or_introl eq_refl)). apply IH; auto.
Qed.

Lemma setHas_In s x : JS.setHas s x = true <-> In x s.
Proof.
  unfold JS.setHas. rewrite existsb_exists. split.
  - intros (y & Hy & E). apply String.eqb_eq in E. now subst.
  - intros H. exists x. split; [exact H | apply String.eqb_refl].
Qed.

Lemma setAdd_NoDup s x : NoDup s -> NoDup (JS.setAdd s x).
Proof.
  intros Hs. unfold JS.setAdd. destruct (JS.setHas s x) eqn:E; [exact Hs|].
  apply NoDup_app; [exact Hs | repeat constructor; simpl; tauto |].
  intros a Ha [<-|[]]. apply setHas_In in Ha. congruence.
Qed.

(* ================================================================== *)
(** ** The contact-path selector *)
(* ================================================================== *)

Module PathSelectorFacts.
Import PathSelector.

Ltac step_cases :=
  repeat match goal with
         | |- context [match ?x with _ => _ end] => destruct x
         | |- context [if ?b then _ else _] => destruct b
         end.

Lemma candidates_wellScored P contacts people companyName region :
  Forall wellScored (candidates P contacts people companyName region).
Proof.
  unfold candidates. apply Forall_push; [|reflexivity].
  repeat (apply (fold_left_invariant (Forall wellScored));
          [ intros b a Hb;
            unfold namedEmails, departmentInboxes, pressAgencies,
              contactForms, genericEmails;
            step_cases; try exact Hb;
            (apply Forall_push; [exact Hb | unfold wellScored; simpl; lia]) | ]).
  constructor.
Qed.

(** The later loops only add candidates. *)
Lemma loop_keeps (step : list SelectedPath -> Contacts.ExtractedContact -> list SelectedPath)
  (contacts : list Contacts.ExtractedContact) (q : SelectedPath) :
  (forall acc c, In q acc -> In q (step acc c)) ->
  forall acc, In q acc -> In q (fold_left step contacts acc).
Proof.
  intros H. apply (fold_left_invariant (fun acc => In q acc)). exact H.
Qed.

Lemma namedEmails_keeps contacts acc p q :
  In q acc -> In q (namedEmails contacts acc p).
Proof.
  unfold namedEmails. destruct (find _ contacts); [|tauto].
  intros H. apply In_push. now left.
Qed.

Lemma namedEmails_adds contacts people p c :
  In p people ->
  find (mightBelongTo p) contacts = Some c ->
  forall acc,
    In (mkPath named_email (Contacts.value c) (Some (People.name p))
          (titleOrUndefined (People.jobTitle p)) 100%Z
          (Some (Contacts.sourceUrl c)))
       (fold_left (namedEmails contacts) people acc).
Proof.
  intros Hin Hfind. induction people as [|p' t IH]; [contradiction|].
  intros acc. simpl. destruct Hin as [->|Hin].
  - apply (fold_left_invariant (fun acc => In _ acc)).
    + intros b a. apply namedEmails_keeps.
    + unfold namedEmails. rewrite Hfind. apply In_push. now right.
  - apply IH, Hin.
Qed.

Lemma candidates_keep P contacts people companyName region q :
  In q (fold_left (namedEmails contacts) people []) ->
  In q (candidates P contacts people companyName region).
Proof.
  intros H. unfold candidates. apply In_push. left.
  repeat (apply loop_keeps;
          [ intros acc c Hq;
            unfold departmentInboxes, pressAgencies, contactForms,
              genericEmails;
            step_cases; try exact Hq; apply In_push; now left | ]).
  exact H.
Qed.

Lemma ranked_sorted P contacts people companyName region :
  StronglySorted (fun a b => (score b <= score a)%Z)
    (ranked P contacts people companyName region).
Proof.
  unfold ranked. apply (sort_descending score).
Qed.

Lemma ranked_perm P contacts people companyName region :
  Permutation (ranked P contacts people companyName region)
    (candidates P contacts people companyName region).
Proof.
  apply sort_perm.
Qed.


(** C1. [selectBestPaths] returns a selection for every list of stored
    contacts and people, and its primary is a candidate of highest rank
    score; with no contact and no person the primary is the external-search
    (LinkedIn) fallback with rank score 25, and there is no backup. *)
Theorem selectBestPaths_total P companyName region :
  (forall contacts people, exists sel,
      selectBestPaths P contacts people companyName region = Some sel /\
      In (primary sel) (candidates P contacts people companyName region) /\
      Forall (fun q => (score q <= score (primary sel))%Z)
        (candidates P contacts people companyName region)) /\
  (exists sel,
      selectBestPaths P [] [] companyName region = Some sel /\
      primary sel =
        mkPath linkedin
          (LinkedIn.generateLinkedInSearchUrl P companyName
             (Some "Brand Partnerships") region)
          None None 25%Z None /\
      backup sel = None).
Proof.
  split.
  - intros contacts people.
    pose proof (ranked_perm P contacts people companyName region) as Hperm.
    pose proof (ranked_sorted P contacts people companyName region) as Hsort.
    unfold selectBestPaths.
    destruct (ranked P contacts people companyName region) as [|first rest] eqn:E.
    + apply Permutation_nil in Hperm. unfold candidates, JS.push in Hperm.
      destruct (fold_left genericEmails contacts _); discriminate.
    + eexists. split; [reflexivity|]. simpl. split.
      * eapply Permutation_in; [exact Hperm | now left].
      * eapply Permutation_Forall; [exact Hperm|].
        inversion Hsort as [|? ? _ Hfirst]; subst.
        constructor; [lia | exact Hfirst].
  - eexists. split; [reflexivity|]. split; reflexivity.
Qed.

(** C3, as the claim states it, fails: an earlier email contact whose
    local part overlaps a token of the name is the one paired with the person.
    Here "doe@company.com" is stored before "jane@company.com"; the
    named_email candidate of Jane Doe carries "doe@company.com", and
    "jane@company.com" is ranked as a plain inbox with score 30. *)
Lemma earlier_overlapping_email_is_paired :
  In Demo.janeDoe [Demo.janeDoe] /\
  People.name Demo.janeDoe = "Jane Doe" /\
  In (Demo.mail "jane@company.com" "general" 20)
     [Demo.mail "doe@company.com" "general" 20;
      Demo.mail "jane@company.com" "general" 20] /\
  map (fun q => (type q, value q, personName q, score q))
    (ranked Demo.platform
       [Demo.mail "doe@company.com" "general" 20;
        Demo.mail "jane@company.com" "general" 20]
       [Demo.janeDoe] "Acme" None) =
  [ (named_email, "doe@company.com", Some "Jane Doe", 100%Z);
    (inbox, "jane@company.com", None, 30%Z);
    (linkedin,
     "https://www.linkedin.com/search/results/people/?keywords=Brand+Partnerships+Acme&origin=GLOBAL_SEARCH_HEADER",
     None, 25%Z) ].
Proof.
  repeat split; try (simpl; tauto). 
Qed.

(** C3, amended. If the people contain a person named "Jane Doe" and the
    first email contact, in stored order, whose local part overlaps a token
    of that name is "jane@company.com", then the ranked list holds the
    named_email candidate with value "jane@company.com", linked to
    "Jane Doe", with rank score 100, and only named_email candidates are
    ranked before it: every inbox candidate comes after it. *)
Theorem named_email_for_jane P pre c post people p companyName region :
  Contacts.pathType c = Contacts.T_email ->
  Contacts.value c = "jane@company.com" ->
  (forall c', In c' pre -> mightBelongTo p c' = false) ->
  In p people ->
  People.name p = "Jane Doe" ->
  exists before after,
    ranked P (pre ++ c :: post) people companyName region =
      before
      ++ mkPath named_email "jane@company.com" (Some "Jane Doe")
           (titleOrUndefined (People.jobTitle p)) 100%Z
           (Some (Contacts.sourceUrl c))
      :: after /\
    Forall (fun q => type q = named_email) before /\
    (forall q,
        In q (ranked P (pre ++ c :: post) people companyName region) ->
        type q = inbox -> In q after).
Proof.
  intros Hty Hval Hpre Hin Hname.
  assert (Hc : mightBelongTo p c = true).
  { unfold mightBelongTo, isEmail. rewrite Hty, Hval, Hname. reflexivity. }
  pose proof (find_first (mightBelongTo p) pre post c Hpre Hc) as Hfind.
  pose proof (namedEmails_adds (pre ++ c :: post) people p c Hin Hfind []) as Hcand.
  rewrite Hval, Hname in Hcand.
  apply (candidates_keep P (pre ++ c :: post) people companyName region _) in Hcand.
  eapply Permutation_in in Hcand;
    [|apply Permutation_sym, ranked_perm].
  destruct (in_split _ _ Hcand) as (before & after & E).
  exists before, after. split; [exact E|].
  pose proof (ranked_sorted P (pre ++ c :: post) people companyName region) as Hs.
  rewrite E in Hs. apply (descending_before score) in Hs. simpl in Hs.
  pose proof (candidates_wellScored P (pre ++ c :: post) people companyName region)
    as Hw.
  eapply Permutation_Forall in Hw; [|apply Permutation_sym, ranked_perm].
  rewrite E in Hw. apply Forall_app in Hw. destruct Hw as [Hw _].
  assert (Hbefore : Forall (fun q => type q = named_email) before).
  { rewrite Forall_forall in *. intros q Hq.
    specialize (Hs q Hq). specialize (Hw q Hq). unfold wellScored in Hw.
    destruct (type q); try reflexivity; lia. }
  split; [exact Hbefore|].
  intros q Hq Hinbox. rewrite E in Hq. apply in_app_iff in Hq.
  destruct Hq as [Hq|[<-|Hq]].
  - rewrite Forall_forall in Hbefore. rewrite (Hbefore q Hq) in Hinbox.
    discriminate.
  - discriminate.
  - exact Hq.
Qed.

(** The amended C3 on three stored contacts, the second being the address
    of Jane Doe. *)
Lemma named_email_for_jane_witness :
  exists before after,
    ranked Demo.platform
      ([Demo.mail "info@company.com" "info" 40]
       ++ Demo.mail "jane@company.com" "general" 20
       :: [Demo.mail "marketing@company.com" "marketing" 80])
      [Demo.janeDoe] "Acme" None =
      before
      ++ mkPath named_email "jane@company.com" (Some "Jane Doe")
           (titleOrUndefined (People.jobTitle Demo.janeDoe)) 100%Z
           (Some (Contacts.sourceUrl (Demo.mail "jane@company.com" "general" 20)))
      :: after /\
    Forall (fun q => type q = named_email) before /\
    (forall q,
        In q (ranked Demo.platform
                ([Demo.mail "info@company.com" "info" 40]
                 ++ Demo.mail "jane@company.com" "general" 20
                 :: [Demo.mail "marketing@company.com" "marketing" 80])
                [Demo.janeDoe] "Acme" None) ->
        type q = inbox -> In q after).
Proof.
  apply (named_email_for_jane Demo.platform
           [Demo.mail "info@company.com" "info" 40]
           (Demo.mail "jane@company.com" "general" 20)
           [Demo.mail "marketing@company.com" "marketing" 80]
           [Demo.janeDoe] Demo.janeDoe "Acme" None).
  - reflexivity.
  - reflexivity.
  - intros c' [<-|[]]. reflexivity.
  - simpl. left. reflexivity.
  - reflexivity.
Defined.

(** C10. Some stored contacts and people make the primary and the backup
    carry the same address: the one email contact
    "jane.partnerships@acme.test", classified as partnerships, overlaps the
    name of Jane Doe, so it is entered as a named_email candidate (100) and
    again as an inbox candidate (75), and the two fill both slots. *)
Theorem same_address_in_both_slots :
  exists contacts people,
    forall P companyName region,
    exists sel b,
      selectBestPaths P contacts people companyName region = Some sel /\
      backup sel = Some b /\
      type (primary sel) = named_email /\ score (primary sel) = 100%Z /\
      type b = inbox /\ score b = 75%Z /\
      value b = value (primary sel).
Proof.
  exists [Demo.mail "jane.partnerships@acme.test" "partnerships" 100],
         [Demo.janeDoe].
  intros P companyName region.
  eexists. eexists. split; [reflexivity|].
  repeat split.
Qed.

End PathSelectorFacts.

(* ================================================================== *)
(** ** The crawler *)
(* ================================================================== *)

Module CrawlerFacts.
Import Crawler.

Lemma fetchPage_log P u log :
  snd (fetchPage P u log) = log ++ [u].
Proof. reflexivity. Qed.

(** The loop over the paths to fetch requests each of them once, in order. *)
Lemma fetchFound_log P normalizedBase paths :
  forall results log,
    snd (fetchFound P normalizedBase paths results log) =
    log ++ map (String.append normalizedBase) paths.
Proof.
  induction paths as [|path rest IH]; intros results log; simpl.
  - unfold ret. simpl. now rewrite app_nil_r.
  - unfold bind, fetchPage. rewrite IH. now rewrite <- app_assoc.
Qed.

(** The requests of a crawl: the homepage, then, when it answered, the
    first ten of the paths found. *)
Lemma crawl_requests P baseUrl log :
  snd (crawlCompanyWebsite P baseUrl log) =
  log ++ normalizeBase baseUrl ::
    (if success (fst (fetchPage P (normalizeBase baseUrl) log))
     then map (String.append (normalizeBase baseUrl))
            (firstn 10
               (findPaths P (normalizeBase baseUrl)
                  (fst (fetchPage P (normalizeBase baseUrl) log))))
     else []).
Proof.
  unfold crawlCompanyWebsite, bind. cbv zeta.
  pose proof (fetchPage_log P (normalizeBase baseUrl) log) as Hlog.
  destruct (fetchPage P (normalizeBase baseUrl) log) as [hp log'].
  simpl in Hlog. subst log'. cbn [fst negb].
  destruct (success hp); cbn [negb].
  - rewrite fetchFound_log, <- app_assoc. reflexivity.
  - reflexivity.
Qed.

(** At most ten paths are requested beyond the homepage. *)
Lemma crawl_request_cap P baseUrl :
  (List.length (snd (run (crawlCompanyWebsite P baseUrl))) <= 11)%nat.
Proof.
  unfold run. rewrite crawl_requests.
  generalize (findPaths P (normalizeBase baseUrl)
                (fst (fetchPage P (normalizeBase baseUrl) []))).
  generalize (success (fst (fetchPage P (normalizeBase baseUrl) []))).
  generalize (normalizeBase baseUrl).
  intros normalizedBase ok found. destruct ok; cbn [app List.length]; [|lia].
  rewrite length_map. pose proof (firstn_le_length 10 found). lia.
Qed.

(** The paths found form a set: no path is listed twice. *)
Lemma findPaths_NoDup P normalizedBase homepage :
  NoDup (findPaths P normalizedBase homepage).
Proof.
  unfold findPaths.
  apply (fold_left_invariant (@NoDup string)).
  { intros b a Hb. destruct (negb _); [apply setAdd_NoDup|]; exact Hb. }
  apply (fold_left_invariant (@NoDup string)); [|constructor].
  intros b a Hb. unfold addLinkPaths.
  destruct (negb _); [exact Hb|].
  destruct (newURL P _ None); [|exact Hb].
  destruct (newURL P normalizedBase None); [|exact Hb].
  destruct (negb _); [exact Hb|].
  apply (fold_left_invariant (@NoDup string)); [|exact Hb].
  intros b' a' Hb'. destruct (_ || _); [apply setAdd_NoDup|]; exact Hb'.
Qed.

(** C2. When the homepage fetch fails, the crawl returns the collection with
    the one entry of the failed homepage, and the homepage request is the
    only request it makes. *)
Theorem homepage_failure_stops_crawl P baseUrl log :
  success (fst (fetchPage P (normalizeBase baseUrl) log)) = false ->
  crawlCompanyWebsite P baseUrl log =
  ([("/", fst (fetchPage P (normalizeBase baseUrl) log))],
   log ++ [normalizeBase baseUrl]).
Proof.
  intros Hfail. unfold crawlCompanyWebsite, bind.
  destruct (fetchPage P (normalizeBase baseUrl) log) as [hp log'] eqn:E.
  cbn [fst] in Hfail. rewrite Hfail. cbn [negb]. unfold ret.
  pose proof (fetchPage_log P (normalizeBase baseUrl) log) as Hlog.
  rewrite E in Hlog. cbn [snd] in Hlog. now rewrite Hlog.
Qed.

(** C2 on the unreachable site. *)
Lemma homepage_failure_stops_crawl_witness :
  crawlCompanyWebsite Demo.platform "down.test/" [] =
  ([("/", fst (fetchPage Demo.platform (normalizeBase "down.test/") []))],
   [] ++ [normalizeBase "down.test/"]).
Proof.
  apply (homepage_failure_stops_crawl Demo.platform "down.test/" []).
  reflexivity.
Defined.

(** C7, at a homepage that links to the site root: the link puts the path
    ["/"] first among the paths to fetch, and the crawl requests the homepage
    a second time, as the base followed by ["/"], before the allow-list. *)
Theorem linked_root_is_fetched_again :
  links (fst (fetchPage Demo.platform "https://acme.test" [])) = ["/"] /\
  firstn 10
    (findPaths Demo.platform "https://acme.test"
       (fst (fetchPage Demo.platform "https://acme.test" []))) =
  [ "/"; "/about"; "/about-us"; "/brand"; "/community"; "/sustainability";
    "/partnerships"; "/partners"; "/sponsorship"; "/sponsorships" ] /\
  snd (run (crawlCompanyWebsite Demo.platform "https://acme.test")) =
  [ "https://acme.test"; "https://acme.test/"; "https://acme.test/about";
    "https://acme.test/about-us"; "https://acme.test/brand";
    "https://acme.test/community"; "https://acme.test/sustainability";
    "https://acme.test/partnerships"; "https://acme.test/partners";
    "https://acme.test/sponsorship"; "https://acme.test/sponsorships" ].
Proof.
  repeat split.
Qed.



End CrawlerFacts.

(* ================================================================== *)
(** ** Adding what was not seen before *)
(* ================================================================== *)

Section Unseen.
Context {A : Type} (key : A -> string).

Lemma distinctSeen_start : distinctSeen key ([], []).
Proof.
  split; simpl; [constructor | tauto].
Qed.

Lemma distinctSeen_add (all : list A) (seen : list string) (x : A) :
  distinctSeen key (all, seen) ->
  JS.setHas seen (key x) = false ->
  distinctSeen key (JS.push all x, JS.setAdd seen (key x)).
Proof.
  intros [Hnd Hseen] Hnew. simpl in *. unfold JS.push, JS.setAdd.
  rewrite Hnew. split; simpl.
  - rewrite map_app. simpl. apply NoDup_app; [exact Hnd | repeat constructor; simpl; tauto |].
    intros k Hk [<-|[]]. apply in_map_iff in Hk. destruct Hk as (a & Ea & Ha).
    apply Hseen in Ha. rewrite Ea in Ha.
    apply setHas_In in Ha. congruence.
  - intros a Ha. apply in_app_iff in Ha. apply in_app_iff.
    destruct Ha as [Ha|[<-|[]]]; [left; auto | right; now left].
Qed.

End Unseen.

(* ================================================================== *)
(** ** The contact extractor *)
(* ================================================================== *)

Module ContactsFacts.
Import Contacts.

Lemma contacts_addUnseen_distinct st found :
  distinctSeen value st -> distinctSeen value (addUnseen st found).
Proof.
  unfold addUnseen. apply (fold_left_invariant (distinctSeen value)).
  intros [all seen] c Hst.
  destruct (JS.setHas seen (value c)) eqn:E; simpl; [exact Hst|].
  apply (distinctSeen_add value); assumption.
Qed.

Lemma createEmailContact_value email sourceUrl :
  value (createEmailContact email sourceUrl) = email.
Proof.
  unfold createEmailContact. destruct (classify _ _ _). reflexivity.
Qed.

(** Every contact of [extractEmails] passed [isValidEmail]. *)
Lemma extractEmails_valid P html sourceUrl :
  Forall (fun c => isValidEmail (value c) = true) (extractEmails P html sourceUrl).
Proof.
  unfold extractEmails.
  apply (fold_left_invariant (Forall (fun c => isValidEmail (value c) = true))).
  { intros b a Hb. destruct (isValidEmail (JS.toLowerCase a)) eqn:E; [|exact Hb].
    destruct (find _ b); [exact Hb|].
    apply Forall_push; [exact Hb|]. now rewrite createEmailContact_value. }
  apply (fold_left_invariant (Forall (fun c => isValidEmail (value c) = true)));
    [|constructor].
  intros b a Hb. destruct (JS.truthy a); [|exact Hb].
  destruct (isValidEmail _) eqn:E; [|exact Hb].
  apply Forall_push; [exact Hb|]. now rewrite createEmailContact_value.
Qed.

Lemma classify_first prefix before k s after dflt :
  JS.includes prefix k = true ->
  (forall k' s', In (k', s') before -> JS.includes prefix k' = false) ->
  classify prefix (before ++ (k, s) :: after) dflt = (k, s).
Proof.
  intros Hk. induction before as [|[k0 s0] t IH]; simpl; intros Hbefore.
  - now rewrite Hk.
  - rewrite (Hbefore k0 s0 (or_introl eq_refl)). apply IH.
    intros k' s' H. apply (Hbefore k' s'). now right.
Qed.

Lemma classify_none prefix entries dflt :
  (forall k s, In (k, s) entries -> JS.includes prefix k = false) ->
  classify prefix entries dflt = dflt.
Proof.
  induction entries as [|[k0 s0] t IH]; simpl; intros H.
  - reflexivity.
  - rewrite (H k0 s0 (or_introl eq_refl)). apply IH.
    intros k s Hin. apply (H k s). now right.
Qed.

(** Every contact of [extractEmails] is the classification of its own
    address, with the page as source. *)
Lemma extractEmails_classified P html sourceUrl :
  Forall (fun c => c = createEmailContact (value c) sourceUrl)
    (extractEmails P html sourceUrl).
Proof.
  unfold extractEmails.
  apply (fold_left_invariant
           (Forall (fun c => c = createEmailContact (value c) sourceUrl))).
  { intros b a Hb. destruct (isValidEmail (JS.toLowerCase a)); [|exact Hb].
    destruct (find _ b); [exact Hb|].
    apply Forall_push; [exact Hb|]. now rewrite createEmailContact_value. }
  apply (fold_left_invariant
           (Forall (fun c => c = createEmailContact (value c) sourceUrl)));
    [|constructor].
  intros b a Hb. destruct (JS.truthy a); [|exact Hb].
  destruct (isValidEmail _); [|exact Hb].
  apply Forall_push; [exact Hb|]. now rewrite createEmailContact_value.
Qed.

(** A valid address in a mail link is returned. *)
Lemma extractEmails_accepts_link P html sourceUrl href email :
  In href (mailtoHrefs P html) ->
  JS.toLowerCase (JS.splitHead "?" (JS.replaceFirst "mailto:" "" href)) = email ->
  isValidEmail email = true ->
  In (createEmailContact email sourceUrl) (extractEmails P html sourceUrl).
Proof.
  intros Hin Hemail Hvalid. unfold extractEmails.
  apply (fold_left_invariant (In (createEmailContact email sourceUrl))).
  { intros b a Hb. destruct (isValidEmail (JS.toLowerCase a)); [|exact Hb].
    destruct (find (fun c => String.eqb (value c) (JS.toLowerCase a)) b); [exact Hb|]. apply In_push. now left. }
  apply (fold_left_reaches (fun _ => True)
           (In (createEmailContact email sourceUrl)) _ href); auto.
  - intros b _. destruct (JS.truthy href) eqn:Et.
    + rewrite Hemail, Hvalid. apply In_push. now right.
    + destruct href; [|discriminate]. simpl in Hemail. subst email.
      discriminate.
  - intros b a Hb. destruct (JS.truthy a); [|exact Hb].
    destruct (isValidEmail (JS.toLowerCase (JS.splitHead "?" (JS.replaceFirst "mailto:" "" a))));
      [|exact Hb]. apply In_push. now left.
Qed.

(** A valid address matched in the text of the page is returned. *)
Lemma extractEmails_accepts_text P html sourceUrl m email :
  In m (reMatchAll P ReEmail (bodyText P html)) ->
  JS.toLowerCase (m_0 m) = email ->
  isValidEmail email = true ->
  In (createEmailContact email sourceUrl) (extractEmails P html sourceUrl).
Proof.
  intros Hin Hemail Hvalid. unfold extractEmails.
  apply (fold_left_reaches
           (Forall (fun c => c = createEmailContact (value c) sourceUrl))
           (In (createEmailContact email sourceUrl)) _ (m_0 m)).
  - intros b a Hb. destruct (isValidEmail (JS.toLowerCase a)); [|exact Hb].
    destruct (find (fun c => String.eqb (value c) (JS.toLowerCase a)) b); [exact Hb|].
    apply Forall_push; [exact Hb|]. now rewrite createEmailContact_value.
  - intros b Hb. rewrite Hemail, Hvalid.
    destruct (find (fun c => String.eqb (value c) email) b) as [c|] eqn:Ef.
    + apply find_some in Ef. destruct Ef as [Hc Hv].
      apply String.eqb_eq in Hv. rewrite Forall_forall in Hb.
      rewrite <- Hv. rewrite <- (Hb c Hc). exact Hc.
    + apply In_push. now right.
  - intros b a Hb. destruct (isValidEmail (JS.toLowerCase a)); [|exact Hb].
    destruct (find (fun c => String.eqb (value c) (JS.toLowerCase a)) b); [exact Hb|]. apply In_push. now left.
  - now apply in_map.
  - apply (fold_left_invariant
             (Forall (fun c => c = createEmailContact (value c) sourceUrl)));
      [|constructor].
    intros b a Hb. destruct (JS.truthy a); [|exact Hb].
    destruct (isValidEmail (JS.toLowerCase (JS.splitHead "?" (JS.replaceFirst "mailto:" "" a))));
      [|exact Hb].
    apply Forall_push; [exact Hb|]. now rewrite createEmailContact_value.
Qed.

(** C4. The address "info@example.com" is not valid, so no contact of the
    email extraction carries it. The address "partnerships@realcompany.com"
    is valid, and the email extraction returns it, from a mail link as from
    the text of the page, as an email contact of sub-type "partnerships"
    with confidence 100; more generally every valid address found is
    returned as its classification. The sub-type and the confidence of an
    address with an ASCII local part are those of the first keyword of the
    priority table, in the order of the table, that its lower-cased local
    part includes; when it includes none, they are "general" and 20, which
    is below every confidence of the table. *)
Theorem email_classification :
  isValidEmail "info@example.com" = false /\
  (forall P html sourceUrl c,
      In c (extractEmails P html sourceUrl) -> value c <> "info@example.com") /\
  isValidEmail "partnerships@realcompany.com" = true /\
  (forall sourceUrl,
      createEmailContact "partnerships@realcompany.com" sourceUrl =
      mkContact T_email "partnerships@realcompany.com" (Some "partnerships")
        100%Z sourceUrl) /\
  (forall P html sourceUrl,
      (exists href,
          In href (mailtoHrefs P html) /\
          JS.toLowerCase (JS.splitHead "?" (JS.replaceFirst "mailto:" "" href)) =
            "partnerships@realcompany.com") \/
      (exists m,
          In m (reMatchAll P ReEmail (bodyText P html)) /\
          JS.toLowerCase (m_0 m) = "partnerships@realcompany.com") ->
      In (mkContact T_email "partnerships@realcompany.com" (Some "partnerships")
            100%Z sourceUrl)
         (extractEmails P html sourceUrl)) /\
  (forall P html sourceUrl email,
      isValidEmail email = true ->
      (exists href,
          In href (mailtoHrefs P html) /\
          JS.toLowerCase (JS.splitHead "?" (JS.replaceFirst "mailto:" "" href)) =
            email) \/
      (exists m,
          In m (reMatchAll P ReEmail (bodyText P html)) /\
          JS.toLowerCase (m_0 m) = email) ->
      In (createEmailContact email sourceUrl) (extractEmails P html sourceUrl)) /\
  (forall email sourceUrl before k s after,
      asciiOnly (JS.splitHead "@" email) = true ->
      EMAIL_PRIORITY = before ++ (k, s) :: after ->
      JS.includes (JS.toLowerCase (JS.splitHead "@" email)) k = true ->
      (forall k' s', In (k', s') before ->
         JS.includes (JS.toLowerCase (JS.splitHead "@" email)) k' = false) ->
      createEmailContact email sourceUrl =
      mkContact T_email email (Some k) s sourceUrl) /\
  (forall email sourceUrl,
      asciiOnly (JS.splitHead "@" email) = true ->
      (forall k s, In (k, s) EMAIL_PRIORITY ->
         JS.includes (JS.toLowerCase (JS.splitHead "@" email)) k = false) ->
      createEmailContact email sourceUrl =
      mkContact T_email email (Some "general") 20%Z sourceUrl) /\
  Forall (fun entry => (20 < snd entry)%Z) EMAIL_PRIORITY.
Proof.
  assert (Hfound : forall P html sourceUrl email,
             isValidEmail email = true ->
             (exists href,
                 In href (mailtoHrefs P html) /\
                 JS.toLowerCase
                   (JS.splitHead "?" (JS.replaceFirst "mailto:" "" href)) = email) \/
             (exists m,
                 In m (reMatchAll P ReEmail (bodyText P html)) /\
                 JS.toLowerCase (m_0 m) = email) ->
             In (createEmailContact email sourceUrl)
                (extractEmails P html sourceUrl)).
  { intros P html sourceUrl email Hvalid [(href & Hin & He)|(m & Hin & He)].
    - now apply (extractEmails_accepts_link P html sourceUrl href).
    - now apply (extractEmails_accepts_text P html sourceUrl m). }
  split; [reflexivity|]. split.
  { intros P html sourceUrl c Hc E.
    pose proof (extractEmails_valid P html sourceUrl) as Hv.
    rewrite Forall_forall in Hv. specialize (Hv c Hc). rewrite E in Hv.
    discriminate. }
  split; [reflexivity|]. split; [reflexivity|]. split.
  { intros P html sourceUrl Hsome.
    apply (Hfound P html sourceUrl "partnerships@realcompany.com" eq_refl Hsome). }
  split; [exact Hfound|]. split.
  { intros email sourceUrl before k s after _ Htable Hk Hbefore.
    unfold createEmailContact. rewrite Htable.
    now rewrite (classify_first _ before k s after _ Hk Hbefore). }
  split.
  { intros email sourceUrl _ Hnone. unfold createEmailContact.
    now rewrite (classify_none _ _ _ Hnone). }
  unfold EMAIL_PRIORITY. repeat constructor.
Qed.

(** The table has "partner" before "sponsor": an address whose local part
    includes both is classified by "partner". *)
Lemma email_classification_witness :
  createEmailContact "sponsor.partner@realcompany.com" "https://acme.test" =
  mkContact T_email "sponsor.partner@realcompany.com" (Some "partner") 95%Z
    "https://acme.test".
Proof.
  destruct email_classification as (_ & _ & _ & _ & _ & _ & Hfirst & _ & _).
  apply (Hfirst "sponsor.partner@realcompany.com" "https://acme.test"
           [("partnerships", 100%Z)] "partner" 95%Z
           [ ("sponsorship", 95); ("sponsor", 90); ("marketing", 80);
             ("brand", 75); ("press", 60); ("media", 60); ("pr", 55);
             ("info", 40); ("contact", 35); ("hello", 30) ]%Z).
  - reflexivity.
  - reflexivity.
  - reflexivity.
  - intros k' s' [E|[]]. inversion E; subst. reflexivity.
Defined.

(** C5. The contacts returned by [extractContacts] are in non-increasing
    order of confidence score, and no two of them have the same value. *)
Theorem extractContacts_sorted_distinct P crawlResults baseUrl :
  StronglySorted (fun a b => (confidenceScore b <= confidenceScore a)%Z)
    (extractContacts P crawlResults baseUrl) /\
  NoDup (map value (extractContacts P crawlResults baseUrl)).
Proof.
  unfold extractContacts. split.
  - apply (sort_descending confidenceScore).
  - eapply Permutation_NoDup.
    + apply Permutation_map, Permutation_sym, sort_perm.
    + apply (fold_left_invariant (distinctSeen value));
        [|apply (distinctSeen_start _)].
      intros st [path result] Hst.
      destruct (negb (Crawler.success result)); [exact Hst|].
      apply contacts_addUnseen_distinct.
      destruct (_ || _); [apply contacts_addUnseen_distinct|];
        apply contacts_addUnseen_distinct, Hst.
Qed.

End ContactsFacts.

(* ================================================================== *)
(** ** The signal analyzer *)
(* ================================================================== *)

Module AnalyzerFacts.
Import Analyzer.

Lemma addSignals_distinct path st signals :
  distinctSeen type st -> distinctSeen type (addSignals path st signals).
Proof.
  unfold addSignals. apply (fold_left_invariant (distinctSeen type)).
  intros [all seen] s Hst.
  destruct (JS.setHas seen (type s)) eqn:E; simpl; [exact Hst|].
  apply (distinctSeen_add type all seen
           (mkSignal (type s)
              (String.append "[" (String.append path
                 (String.append "] " (text s))))
              (score s)));
    assumption.
Qed.

(** C6. No two signals returned by [analyzePageContent] have the same
    category, whatever the pages. *)
Theorem analyzePageContent_one_per_category P crawlResults :
  NoDup (map type (analyzePageContent P crawlResults)).
Proof.
  unfold analyzePageContent.
  apply (fold_left_invariant (distinctSeen type)); [|apply (distinctSeen_start _)].
  intros st [path result] Hst.
  destruct (negb (Crawler.success result)); [exact Hst|].
  apply addSignals_distinct, Hst.
Qed.

End AnalyzerFacts.

(* ================================================================== *)
(** ** The people extractor and the merge of the [qualify] command *)
(* ================================================================== *)

Module PeopleFacts.
Import People.

Lemma people_addUnseen_distinct st extracted :
  distinctSeen lowerName st -> distinctSeen lowerName (addUnseen st extracted).
Proof.
  unfold addUnseen. apply (fold_left_invariant (distinctSeen lowerName)).
  intros [all seen] p Hst.
  destruct (JS.setHas seen (JS.toLowerCase (name p))) eqn:E; simpl; [exact Hst|].
  apply (distinctSeen_add lowerName all seen p); assumption.
Qed.

(** X21. The people of the crawl alone have pairwise distinct lower-cased
    names, whatever the pages. *)
Lemma extractPeople_distinct P crawlResults companyName :
  NoDup (map lowerName (extractPeople P crawlResults companyName)).
Proof.
  unfold extractPeople.
  apply (fold_left_invariant (distinctSeen lowerName)); [|apply (distinctSeen_start _)].
  intros st [path result] Hst.
  destruct (negb (Crawler.success result)); [exact Hst|].
  apply people_addUnseen_distinct, Hst.
Qed.

(** C9, at a company whose press page says "led by Jane Doe" and whose
    biography page lists Jane Doe among the key people: the list handed to
    [savePeople] names Jane Doe twice, once from each source. *)
Theorem merged_people_repeat_a_name :
  map lowerName
    (Cli.qualifyPeople Demo.platform [("/press", Demo.pressPage)] "Acme"
       (Some Demo.wikiUrl)) =
  ["jane doe"; "jane doe"] /\
  map sourceUrl
    (Cli.qualifyPeople Demo.platform [("/press", Demo.pressPage)] "Acme"
       (Some Demo.wikiUrl)) =
  ["https://acme.test/press"; "https://en.wikipedia.org/wiki/Acme"].
Proof.
  split; reflexivity.
Qed.

End PeopleFacts.

(* ================================================================== *)
(** ** Further facts about the primitives *)
(* ================================================================== *)

Lemma fold_left_invariant_in {A B : Type} (I : B -> Prop) (step : B -> A -> B)
  (l : list A) :
  (forall b a, In a l -> I b -> I (step b a)) ->
  forall b, I b -> I (fold_left step l b).
Proof.
  induction l as [|a t IH]; simpl; intros Hstep b Hb.
  - exact Hb.
  - apply IH.
    + intros b' a' Ha'. apply Hstep. now right.
    + apply Hstep; [now left | exact Hb].
Qed.

Lemma fold_left_skips {A B : Type} (keep : A -> bool) (step : B -> A -> B)
  (l : list A) :
  (forall b a, keep a = false -> step b a = b) ->
  forall b, fold_left step l b = fold_left step (filter keep l) b.
Proof.
  intros Hskip. induction l as [|a t IH]; simpl; intros b.
  - reflexivity.
  - destruct (keep a) eqn:E; simpl.
    + apply IH.
    + rewrite (Hskip b a E). apply IH.
Qed.

Lemma Forall_setAdd (Q : string -> Prop) (s : list string) (x : string) :
  Forall Q s -> Q x -> Forall Q (JS.setAdd s x).
Proof.
  intros Hs Hx. unfold JS.setAdd. destruct (JS.setHas s x); [exact Hs|].
  apply Forall_app. split; [exact Hs | now constructor].
Qed.

Lemma Forall_firstn {A : Type} (Q : A -> Prop) (n : nat) (l : list A) :
  Forall Q l -> Forall Q (firstn n l).
Proof.
  intros H. rewrite <- (firstn_skipn n l) in H. now apply Forall_app in H.
Qed.

Lemma NoDup_firstn {A : Type} (n : nat) (l : list A) :
  NoDup l -> NoDup (firstn n l).
Proof.
  intros H. rewrite <- (firstn_skipn n l) in H.
  now apply NoDup_app_remove_r in H.
Qed.

Lemma append_inj_r (b p q : string) :
  String.append b p = String.append b q -> p = q.
Proof.
  induction b as [|c b IH]; simpl; intros H.
  - exact H.
  - inversion H. now apply IH.
Qed.

Lemma append_length (b p : string) :
  String.length (String.append b p) = (String.length b + String.length p)%nat.
Proof.
  induction b as [|c b IH]; simpl; [reflexivity | now rewrite IH].
Qed.

Lemma append_self (b p : string) :
  b = String.append b p -> p = EmptyString.
Proof.
  intros H. apply (f_equal String.length) in H. rewrite append_length in H.
  destruct p; [reflexivity | simpl in H; lia].
Qed.

Lemma toLowerCase_length (s : string) :
  String.length (JS.toLowerCase s) = String.length s.
Proof.
  induction s as [|c r IH]; simpl; [reflexivity | now rewrite IH].
Qed.

Lemma lowerAscii_idem (c : ascii) :
  JS.lowerAscii (JS.lowerAscii c) = JS.lowerAscii c.
Proof.
  destruct c as [[] [] [] [] [] [] [] []]; reflexivity.
Qed.

Lemma toLowerCase_idem (s : string) :
  JS.toLowerCase (JS.toLowerCase s) = JS.toLowerCase s.
Proof.
  induction s as [|c r IH]; simpl; [reflexivity|].
  now rewrite lowerAscii_idem, IH.
Qed.

Section MapSetFacts.
Context {V : Type}.

Lemma mapSet_keys (m : list (string * V)) (k : string) (v : V) :
  map fst (JS.mapSet m k v) =
  if JS.setHas (map fst m) k then map fst m else map fst m ++ [k].
Proof.
  induction m as [|[k' v'] r IH]; simpl.
  - reflexivity.
  - unfold JS.setHas in *. simpl. rewrite (String.eqb_sym k k').
    destruct (String.eqb k' k) eqn:E; simpl.
    + apply String.eqb_eq in E. now subst.
    + rewrite IH. now destruct (existsb (String.eqb k) (map fst r)).
Qed.

Lemma mapSet_Forall (Q : string * V -> Prop) (m : list (string * V))
  (k : string) (v : V) :
  Forall Q m -> Q (k, v) -> Forall Q (JS.mapSet m k v).
Proof.
  intros Hm Hkv. induction m as [|[k' v'] r IH]; simpl.
  - now constructor.
  - inversion Hm; subst. destruct (String.eqb k' k); constructor; auto.
Qed.

Lemma mapSet_NoDup (m : list (string * V)) (k : string) (v : V) :
  NoDup (map fst m) -> NoDup (map fst (JS.mapSet m k v)).
Proof.
  intros H. rewrite mapSet_keys.
  destruct (JS.setHas (map fst m) k) eqn:E; [exact H|].
  apply NoDup_app; [exact H | repeat constructor; simpl; tauto |].
  intros a Ha [<-|[]]. apply setHas_In in Ha. congruence.
Qed.

End MapSetFacts.

(* ================================================================== *)
(** ** The crawler: what is requested and what is returned *)
(* ================================================================== *)

Module CrawlerShape.
Import Crawler.

Lemma relevant_paths_lower :
  Forall (fun relevantPath => JS.toLowerCase relevantPath = relevantPath)
    RELEVANT_PATHS.
Proof.
  unfold RELEVANT_PATHS. repeat constructor.
Qed.

Lemma relevant_paths_nonempty :
  Forall (fun relevantPath => relevantPath <> EmptyString) RELEVANT_PATHS.
Proof.
  unfold RELEVANT_PATHS. repeat constructor; discriminate.
Qed.

Lemma findPaths_allowed P normalizedBase homepage :
  Forall allowedPath (findPaths P normalizedBase homepage).
Proof.
  unfold findPaths.
  apply (fold_left_invariant_in (Forall allowedPath)).
  { intros b path Hpath Hb. destruct (negb _); [|exact Hb].
    apply Forall_setAdd; [exact Hb|]. exists path. split; [exact Hpath|].
    left. pose proof relevant_paths_lower as Hl. rewrite Forall_forall in Hl.
    now apply Hl. }
  apply (fold_left_invariant (Forall allowedPath)); [|constructor].
  intros b link Hb. unfold addLinkPaths.
  destruct (negb _); [exact Hb|].
  destruct (newURL P _ None) as [linkUrl|]; [|exact Hb].
  destruct (newURL P normalizedBase None); [|exact Hb].
  destruct (negb _); [exact Hb|].
  apply (fold_left_invariant_in (Forall allowedPath)); [|exact Hb].
  intros b' relevantPath Hin Hb'.
  destruct (String.eqb _ relevantPath) eqn:E1.
  - apply Forall_setAdd; [exact Hb'|]. exists relevantPath.
    split; [exact Hin|]. left. now apply String.eqb_eq.
  - destruct (String.eqb _ (String.append relevantPath "/")) eqn:E2; simpl.
    + apply Forall_setAdd; [exact Hb'|]. exists relevantPath.
      split; [exact Hin|]. right. now apply String.eqb_eq.
    + exact Hb'.
Qed.

Lemma allowedPath_nonempty p : allowedPath p -> p <> EmptyString.
Proof.
  intros (relevantPath & Hin & Hp) ->. simpl in Hp.
  pose proof relevant_paths_nonempty as Hn. rewrite Forall_forall in Hn.
  specialize (Hn relevantPath Hin).
  destruct Hp as [Hp|Hp]; destruct relevantPath; try discriminate; now apply Hn.
Qed.

(** X1. A crawl first requests the normalized base, and then at most ten
    URLs, each the normalized base followed by a path; these paths are
    pairwise distinct and each of them, lower-cased, is a path of the
    allow-list, possibly followed by a slash. Nothing else is requested. *)
Theorem crawl_request_sequence P baseUrl log :
  exists paths,
    snd (crawlCompanyWebsite P baseUrl log) =
      log ++ normalizeBase baseUrl
          :: map (String.append (normalizeBase baseUrl)) paths /\
    (List.length paths <= 10)%nat /\
    NoDup paths /\
    Forall allowedPath paths.
Proof.
  rewrite CrawlerFacts.crawl_requests.
  destruct (success (fst (fetchPage P (normalizeBase baseUrl) log))).
  - eexists. split; [reflexivity|]. split; [|split].
    + apply firstn_le_length.
    + apply NoDup_firstn, CrawlerFacts.findPaths_NoDup.
    + apply Forall_firstn, findPaths_allowed.
  - exists []. repeat split; simpl; try lia; constructor.
Qed.

(** X2. Within one crawl no URL string is handed to [fetch] twice (the
    homepage may still be requested under two strings, the base and the
    base followed by a slash). *)
Theorem crawl_urls_distinct P baseUrl :
  NoDup (snd (run (crawlCompanyWebsite P baseUrl))).
Proof.
  unfold run. rewrite CrawlerFacts.crawl_requests. cbn [app].
  set (base := normalizeBase baseUrl).
  assert (Hpaths :
    forall paths, NoDup paths -> Forall allowedPath paths ->
                  NoDup (base :: map (String.append base) paths)).
  { intros paths Hnd Hall. constructor.
    - intros Hin. apply in_map_iff in Hin. destruct Hin as (p & Hp & Hin).
      symmetry in Hp. apply append_self in Hp.
      rewrite Forall_forall in Hall. now apply (allowedPath_nonempty p (Hall p Hin)).
    - apply Finite.Injective_map_NoDup; [|exact Hnd].
      intros p q. apply append_inj_r. }
  destruct (success _).
  - apply Hpaths.
    + apply NoDup_firstn, CrawlerFacts.findPaths_NoDup.
    + apply Forall_firstn, findPaths_allowed.
  - apply (Hpaths [] (NoDup_nil _) (Forall_nil _)).
Qed.

Lemma fetchPage_url P u log : url (fst (fetchPage P u log)) = u.
Proof.
  unfold fetchPage. cbn [fst].
  destruct (httpGet P log u) as [message|ok status body]; [reflexivity|].
  destruct ok; reflexivity.
Qed.

Lemma collected_mapSet normalizedBase results path r :
  collected normalizedBase results ->
  success r = true ->
  url r = String.append normalizedBase path ->
  collected normalizedBase (JS.mapSet results path r).
Proof.
  intros ((r0 & rest & E) & Hnd & Hok & Hurl) Hr Hu.
  split; [|split; [|split]].
  - subst results. cbn [JS.mapSet]. destruct (String.eqb "/" path) eqn:Ep.
    + apply String.eqb_eq in Ep. subst path. now exists r, rest.
    + now exists r0, (JS.mapSet rest path r).
  - now apply mapSet_NoDup.
  - apply mapSet_Forall; assumption.
  - apply mapSet_Forall; [assumption|]. now left.
Qed.

Lemma fetchFound_collected P normalizedBase paths :
  forall results log,
    collected normalizedBase results ->
    collected normalizedBase (fst (fetchFound P normalizedBase paths results log)).
Proof.
  induction paths as [|path rest IH]; intros results log Hres.
  - exact Hres.
  - simpl. unfold bind.
    pose proof (fetchPage_url P (String.append normalizedBase path) log) as Hu.
    destruct (fetchPage P (String.append normalizedBase path) log) as [r log'].
    cbn [fst] in Hu. apply IH.
    destruct (success r) eqn:Er; [|exact Hres].
    now apply collected_mapSet.
Qed.

(** X3. The collection a crawl returns has the homepage entry ["/"] first
    and no key twice. Either every entry is a successful page, or the
    collection is the single failed homepage. The [url] of an entry is the
    normalized base followed by its key, or the normalized base itself for
    the key ["/"]. *)
Theorem crawl_results_shape P baseUrl log :
  (exists r rest, fst (crawlCompanyWebsite P baseUrl log) = ("/", r) :: rest) /\
  NoDup (map fst (fst (crawlCompanyWebsite P baseUrl log))) /\
  (Forall (fun e => success (snd e) = true)
     (fst (crawlCompanyWebsite P baseUrl log)) \/
   (fst (crawlCompanyWebsite P baseUrl log) =
      [("/", fst (fetchPage P (normalizeBase baseUrl) log))] /\
    success (fst (fetchPage P (normalizeBase baseUrl) log)) = false)) /\
  Forall (fun e => url (snd e) = String.append (normalizeBase baseUrl) (fst e) \/
                   (fst e = "/" /\ url (snd e) = normalizeBase baseUrl))
    (fst (crawlCompanyWebsite P baseUrl log)).
Proof.
  unfold crawlCompanyWebsite, bind. cbv zeta.
  pose proof (fetchPage_url P (normalizeBase baseUrl) log) as Hu.
  destruct (fetchPage P (normalizeBase baseUrl) log) as [hp log'].
  cbn [fst] in *. destruct (success hp) eqn:Ehp; cbn [negb].
  - assert (Hstart : collected (normalizeBase baseUrl) (JS.mapSet [] "/" hp)).
    { split; [now exists hp, []|].
      split; [repeat constructor; simpl; tauto|].
      split; [constructor; [exact Ehp | constructor]|].
      constructor; [right; split; [reflexivity | exact Hu] | constructor]. }
    generalize (firstn 10 (findPaths P (normalizeBase baseUrl) hp)).
    intros paths.
    destruct (fetchFound_collected P (normalizeBase baseUrl) paths _ log' Hstart)
      as (Hhead & Hnd & Hok & Hurl).
    split; [exact Hhead|]. split; [exact Hnd|].
    split; [left; exact Hok | exact Hurl].
  - unfold ret. cbn [fst JS.mapSet map].
    split; [now exists hp, []|].
    split; [repeat constructor; simpl; tauto|].
    split; [right; split; reflexivity|].
    constructor; [right; split; [reflexivity | exact Hu] | constructor].
Qed.

End CrawlerShape.

(* ================================================================== *)
(** ** The signal analyzer: scores and provenance *)
(* ================================================================== *)

Module AnalyzerMore.
Import Analyzer.

Lemma firstPatternSignal_shape P ty sc patterns txt s :
  firstPatternSignal P ty sc patterns txt = Some s ->
  type s = ty /\ score s = sc /\
  exists snippet, text s = String.append "..." (String.append snippet "...").
Proof.
  induction patterns as [|pattern rest IH]; simpl; [discriminate|].
  destruct (reMatchAll P pattern txt) as [|m ms]; [exact IH|].
  intros E. inversion E; subst. simpl. split; [reflexivity|].
  split; [reflexivity|]. now eexists.
Qed.

Lemma findSignals_found P txt : Forall foundSignal (findSignals P txt).
Proof.
  unfold findSignals.
  apply (fold_left_invariant_in (Forall foundSignal)); [|constructor].
  intros signals [[ty patterns] sc] Hin Hs.
  destruct (firstPatternSignal P ty sc patterns txt) as [s|] eqn:E; [|exact Hs].
  apply Forall_push; [exact Hs|].
  destruct (firstPatternSignal_shape P ty sc patterns txt s E) as (Ht & Hsc & Hx).
  split; [|exact Hx]. rewrite Ht, Hsc. unfold weights.
  apply (in_map (fun entry : string * list RegExp * Z => (fst (fst entry), snd entry))
           _ _ Hin).
Qed.

Lemma addSignals_signalOf crawlResults path result st signals :
  In (path, result) crawlResults ->
  Crawler.success result = true ->
  Forall foundSignal signals ->
  Forall (signalOf crawlResults) (fst st) ->
  Forall (signalOf crawlResults) (fst (addSignals path st signals)).
Proof.
  intros Hin Hok Hfound. unfold addSignals.
  apply (fold_left_invariant_in
           (fun st => Forall (signalOf crawlResults) (fst st))).
  intros [all seen] s Hs Hall. cbn [fst] in *.
  destruct (negb (JS.setHas seen (type s))); [|exact Hall]. cbn [fst].
  apply Forall_push; [exact Hall|].
  rewrite Forall_forall in Hfound. destruct (Hfound s Hs) as (Hrow & snippet & Ht).
  split; [exact Hrow|]. exists path, result, snippet. cbn [text].
  rewrite Ht. auto.
Qed.

Lemma analyze_state P crawlResults :
  forall seenPages,
    (forall e, In e seenPages -> In e crawlResults) ->
    forall st,
      distinctSeen type st /\ Forall (signalOf crawlResults) (fst st) ->
      let st' :=
        fold_left
          (fun st entry =>
             let (path, result) := entry : string * Crawler.CrawlResult in
             if negb (Crawler.success result) then st
             else addSignals path st (findSignals P (Crawler.text result)))
          seenPages st in
      distinctSeen type st' /\ Forall (signalOf crawlResults) (fst st').
Proof.
  induction seenPages as [|[path result] rest IH]; intros Hsub st Hst.
  - exact Hst.
  - cbn [fold_left]. apply IH.
    + intros e He. apply Hsub. now right.
    + destruct (Crawler.success result) eqn:Eok; cbn [negb]; [|exact Hst].
      destruct Hst as [Hd Hs]. split.
      * now apply AnalyzerFacts.addSignals_distinct.
      * apply (addSignals_signalOf crawlResults path result);
          [apply Hsub; now left | exact Eok | apply findSignals_found | exact Hs].
Qed.

Lemma analyze_signals P crawlResults :
  NoDup (map type (analyzePageContent P crawlResults)) /\
  Forall (signalOf crawlResults) (analyzePageContent P crawlResults).
Proof.
  unfold analyzePageContent.
  destruct (analyze_state P crawlResults crawlResults (fun e H => H) ([], []))
    as [[Hnd _] Hs].
  - split; [apply (distinctSeen_start _) | constructor].
  - split; assumption.
Qed.

(** X4. Every signal of [analyzePageContent] has the category and the weight
    of a row of the signal table, and its text is a snippet, between
    ellipses, tagged in brackets with the key of a successful page of the
    collection. *)
Theorem signals_come_from_pages P crawlResults :
  Forall (signalOf crawlResults) (analyzePageContent P crawlResults).
Proof.
  unfold analyzePageContent.
  destruct (analyze_state P crawlResults crawlResults (fun e H => H) ([], []))
    as [_ Hs]; [|exact Hs].
  split; [apply (distinctSeen_start _) | constructor].
Qed.

Lemma score_is_total (signals : list SignalMatch) :
  calculateQualificationScore signals = total (map score signals).
Proof.
  unfold calculateQualificationScore.
  assert (H : forall acc,
             fold_left (fun t s => (t + score s)%Z) signals acc =
             (acc + total (map score signals))%Z).
  { induction signals as [|s r IH]; intros acc; simpl.
    - lia.
    - rewrite IH. lia. }
  rewrite H. lia.
Qed.

(** The sum over pairwise distinct rows taken from a table of non-negative
    weights is at most the sum over the table. *)
Lemma total_incl (rows table : list (string * Z)) :
  NoDup rows ->
  incl rows table ->
  Forall (fun row => (0 <= snd row)%Z) table ->
  (total (map snd rows) <= total (map snd table))%Z.
Proof.
  revert table. induction rows as [|row rest IH]; intros table Hnd Hincl Hpos.
  - simpl. clear Hincl. induction table as [|x t IHt]; simpl; [lia|].
    inversion Hpos; subst. specialize (IHt H2). lia.
  - inversion Hnd as [|? ? Hnotin Hnd']; subst.
    destruct (in_split row table (Hincl row (or_introl eq_refl)))
      as (t1 & t2 & ->).
    assert (Hrest : incl rest (t1 ++ t2)).
    { intros x Hx. pose proof (Hincl x (or_intror Hx)) as Hx'.
      apply in_app_iff in Hx'. apply in_app_iff.
      destruct Hx' as [Hx'|[Hx'|Hx']]; auto. subst. contradiction. }
    assert (Hpos' : Forall (fun row => (0 <= snd row)%Z) (t1 ++ t2)).
    { apply Forall_app in Hpos. destruct Hpos as [H1 H2].
      inversion H2; subst. apply Forall_app. now split. }
    specialize (IH (t1 ++ t2) Hnd' Hrest Hpos').
    rewrite !map_app in *. simpl.
    assert (Happ : forall a b, total (a ++ b) = (total a + total b)%Z).
    { intros a b. induction a as [|x a IHa]; simpl; [reflexivity | rewrite IHa; lia]. }
    rewrite Happ in *. simpl. lia.
Qed.

(** X5. The qualification score of the signals of any collection lies
    between 0 and 135, the sum of the seven weights of the table; the page
    of the sample reaches 135. *)
Theorem qualification_score_bounds :
  (forall P crawlResults,
      (0 <= calculateQualificationScore (analyzePageContent P crawlResults) <= 135)%Z) /\
  calculateQualificationScore
    (analyzePageContent Sample.platform [("/", Sample.page)]) = 135%Z.
Proof.
  split; [|reflexivity].
  intros P crawlResults. rewrite score_is_total.
  destruct (analyze_signals P crawlResults) as [Hnd Hs].
  set (signals := analyzePageContent P crawlResults) in *.
  assert (Hrows : map score signals =
                  map snd (map (fun s => (type s, score s)) signals))
    by (rewrite map_map; reflexivity).
  assert (Hin : incl (map (fun s => (type s, score s)) signals) weights).
  { intros row Hrow. apply in_map_iff in Hrow. destruct Hrow as (s & <- & Hs').
    rewrite Forall_forall in Hs. apply (Hs s Hs'). }
  assert (Hpos : Forall (fun row : string * Z => (0 <= snd row)%Z) weights)
    by (unfold weights, SIGNAL_PATTERNS; simpl; repeat constructor; simpl; lia).
  split.
  - rewrite Hrows. generalize Hin.
    generalize (map (fun s => (type s, score s)) signals). intros rows Hrows'.
    induction rows as [|row rest IH]; simpl; [lia|].
    assert (0 <= snd row)%Z.
    { rewrite Forall_forall in Hpos. apply Hpos, Hrows'. now left. }
    assert (0 <= total (map snd rest))%Z
      by (apply IH; intros x Hx; apply Hrows'; now right).
    lia.
  - rewrite Hrows.
    assert (Hnd' : NoDup (map (fun s => (type s, score s)) signals)).
    { apply (NoDup_map_inv fst). rewrite map_map. exact Hnd. }
    pose proof (total_incl _ weights Hnd' Hin Hpos) as Hle.
    assert (Htable : total (map snd weights) = 135%Z) by reflexivity.
    lia.
Qed.

Lemma scoreOfType_weights ty sc :
  In (ty, sc) weights -> Store.scoreOfType ty = sc.
Proof.
  unfold weights, SIGNAL_PATTERNS. simpl.
  intros H.
  repeat (destruct H as [H|H]; [inversion H; subst; reflexivity|]).
  contradiction.
Qed.

(** X6. Reading back the rows saved for the signals of a collection gives
    these signals again: the weight looked up from the stored type is the
    weight the analyzer gave. *)
Theorem saved_signals_read_back P crawlResults :
  Store.getCompanySignals
    (Store.saveSignals (analyzePageContent P crawlResults)) =
  analyzePageContent P crawlResults.
Proof.
  destruct (analyze_signals P crawlResults) as [_ Hs].
  induction (analyzePageContent P crawlResults) as [|s rest IH]; [reflexivity|].
  inversion Hs as [|? ? [Hrow _] Hrest]; subst.
  unfold Store.getCompanySignals, Store.saveSignals in *. simpl.
  rewrite (IH Hrest). f_equal.
  rewrite (scoreOfType_weights _ _ Hrow). now destruct s.
Qed.

End AnalyzerMore.

(* ================================================================== *)
(** ** The extractors on failed pages, and the run on a dead homepage *)
(* ================================================================== *)

Module PipelineFacts.

(** X7. The pages that failed contribute nothing: the signals, the contacts
    and the people of a collection are those of its successful pages. *)
Theorem failed_pages_are_ignored P crawlResults baseUrl companyName :
  Analyzer.analyzePageContent P crawlResults =
    Analyzer.analyzePageContent P (filter succeeded crawlResults) /\
  Contacts.extractContacts P crawlResults baseUrl =
    Contacts.extractContacts P (filter succeeded crawlResults) baseUrl /\
  People.extractPeople P crawlResults companyName =
    People.extractPeople P (filter succeeded crawlResults) companyName.
Proof.
  unfold Analyzer.analyzePageContent, Contacts.extractContacts,
    People.extractPeople.
  split; [|split].
  - apply (f_equal fst). apply (fold_left_skips succeeded).
    intros st [path result] Hfailed. unfold succeeded in Hfailed.
    cbn [snd] in Hfailed. now rewrite Hfailed.
  - apply (f_equal (fun st => JS.sort Contacts.byConfidence (fst st))).
    apply (fold_left_skips succeeded).
    intros st [path result] Hfailed. unfold succeeded in Hfailed.
    cbn [snd] in Hfailed. now rewrite Hfailed.
  - apply (f_equal fst). apply (fold_left_skips succeeded).
    intros st [path result] Hfailed. unfold succeeded in Hfailed.
    cbn [snd] in Hfailed. now rewrite Hfailed.
Qed.

(** X8. When the homepage fetch fails, the collection of the crawl gives no
    signal, a qualification score of 0, no contact and no person; and with
    no contact stored, whatever the people, the selection is the LinkedIn
    fallback alone. *)
Theorem dead_homepage_gives_nothing P baseUrl log companyName region :
  Crawler.success
    (fst (Crawler.fetchPage P (Crawler.normalizeBase baseUrl) log)) = false ->
  Analyzer.analyzePageContent P
    (fst (Crawler.crawlCompanyWebsite P baseUrl log)) = [] /\
  Analyzer.calculateQualificationScore
    (Analyzer.analyzePageContent P
       (fst (Crawler.crawlCompanyWebsite P baseUrl log))) = 0%Z /\
  Contacts.extractContacts P
    (fst (Crawler.crawlCompanyWebsite P baseUrl log)) baseUrl = [] /\
  People.extractPeople P
    (fst (Crawler.crawlCompanyWebsite P baseUrl log)) companyName = [] /\
  forall people,
    exists sel,
      PathSelector.selectBestPaths P
        (Contacts.extractContacts P
           (fst (Crawler.crawlCompanyWebsite P baseUrl log)) baseUrl)
        people companyName region = Some sel /\
      PathSelector.type (PathSelector.primary sel) = PathSelector.linkedin /\
      PathSelector.score (PathSelector.primary sel) = 25%Z /\
      PathSelector.backup sel = None.
Proof.
  intros Hfail.
  assert (Hcrawl : fst (Crawler.crawlCompanyWebsite P baseUrl log) =
                   [("/", fst (Crawler.fetchPage P (Crawler.normalizeBase baseUrl) log))]).
  { unfold Crawler.crawlCompanyWebsite, Crawler.bind. cbv zeta.
    destruct (Crawler.fetchPage P (Crawler.normalizeBase baseUrl) log) as [hp log'].
    cbn [fst] in Hfail. rewrite Hfail. reflexivity. }
  rewrite Hcrawl.
  assert (Ha : Analyzer.analyzePageContent P
                 [("/", fst (Crawler.fetchPage P (Crawler.normalizeBase baseUrl) log))] = []).
  { unfold Analyzer.analyzePageContent. cbn [fold_left]. rewrite Hfail. reflexivity. }
  assert (Hc : Contacts.extractContacts P
                 [("/", fst (Crawler.fetchPage P (Crawler.normalizeBase baseUrl) log))]
                 baseUrl = []).
  { unfold Contacts.extractContacts. cbn [fold_left]. rewrite Hfail. reflexivity. }
  rewrite Ha, Hc. split; [reflexivity|]. split; [reflexivity|].
  split; [reflexivity|]. split.
  { unfold People.extractPeople. cbn [fold_left]. rewrite Hfail. reflexivity. }
  intros people.
  assert (Hnamed : fold_left (PathSelector.namedEmails []) people [] = []).
  { induction people as [|p t IH]; [reflexivity | exact IH]. }
  eexists. unfold PathSelector.selectBestPaths, PathSelector.ranked,
    PathSelector.candidates. cbn [fold_left]. rewrite Hnamed.
  split; [reflexivity|]. repeat split.
Qed.

(** X8 on the unreachable site. *)
Lemma dead_homepage_gives_nothing_witness :
  Analyzer.analyzePageContent Demo.platform
    (fst (Crawler.crawlCompanyWebsite Demo.platform "down.test" [])) = [] /\
  Contacts.extractContacts Demo.platform
    (fst (Crawler.crawlCompanyWebsite Demo.platform "down.test" [])) "down.test"
    = [].
Proof.
  destruct (dead_homepage_gives_nothing Demo.platform "down.test" [] "Down" None
              eq_refl) as (Ha & _ & Hc & _).
  split; [exact Ha | exact Hc].
Defined.

End PipelineFacts.

(* ================================================================== *)
(** ** The contact extractor: what a contact is and where it comes from *)
(* ================================================================== *)

Module ContactsMore.
Import Contacts.

Lemma createEmailContact_fields email u :
  pathType (createEmailContact email u) = T_email /\
  value (createEmailContact email u) = email /\
  sourceUrl (createEmailContact email u) = u.
Proof.
  unfold createEmailContact. destruct (classify _ _ _). repeat split.
Qed.

Lemma createEmailContact_at email u :
  isValidEmail email = true ->
  JS.toLowerCase email = email ->
  contactAt u (createEmailContact email u).
Proof.
  intros Hv Hl.
  destruct (createEmailContact_fields email u) as (Ht & Hval & Hsrc).
  split; [|exact Hsrc]. unfold wellFormedContact.
  rewrite Ht, Hval, Hsrc. auto.
Qed.

Lemma extractEmails_at P html u :
  Forall (contactAt u) (extractEmails P html u).
Proof.
  unfold extractEmails.
  apply (fold_left_invariant (Forall (contactAt u))).
  { intros b a Hb. destruct (isValidEmail (JS.toLowerCase a)) eqn:E; [|exact Hb].
    destruct (find _ b); [exact Hb|].
    apply Forall_push; [exact Hb|].
    apply createEmailContact_at; [exact E | apply toLowerCase_idem]. }
  apply (fold_left_invariant (Forall (contactAt u))); [|constructor].
  intros b a Hb. destruct (JS.truthy a); [|exact Hb].
  destruct (isValidEmail _) eqn:E; [|exact Hb].
  apply Forall_push; [exact Hb|].
  apply createEmailContact_at; [exact E | apply toLowerCase_idem].
Qed.

Lemma extractContactForms_at P html baseUrl u :
  Forall (contactAt u) (extractContactForms P html baseUrl u).
Proof.
  unfold extractContactForms.
  apply (fold_left_invariant (Forall (contactAt u))); [|constructor].
  intros b el Hb. destruct (_ || _); [|exact Hb].
  apply Forall_push; [exact Hb|]. repeat split.
Qed.

Lemma extractAgencyMentions_at P text u :
  Forall (contactAt u) (extractAgencyMentions P text u).
Proof.
  unfold extractAgencyMentions.
  apply (fold_left_invariant (Forall (contactAt u))); [|constructor].
  intros b pattern Hb.
  apply (fold_left_invariant (Forall (contactAt u))); [|exact Hb].
  intros b' m Hb'. destruct (m_1 m) as [g|]; [|exact Hb'].
  destruct (_ && _); [|exact Hb'].
  apply Forall_push; [exact Hb'|]. repeat split.
Qed.

Lemma contacts_addUnseen_keeps (Q : ExtractedContact -> Prop) st found :
  Forall Q found -> Forall Q (fst st) -> Forall Q (fst (addUnseen st found)).
Proof.
  intros Hfound. unfold addUnseen.
  apply (fold_left_invariant_in (fun st => Forall Q (fst st))).
  intros [all seen] c Hc Hall. cbn [fst] in *.
  destruct (negb _); [|exact Hall]. cbn [fst].
  apply Forall_push; [exact Hall|].
  rewrite Forall_forall in Hfound. now apply Hfound.
Qed.

Lemma contactAt_of crawlResults path result found :
  In (path, result) crawlResults ->
  Crawler.success result = true ->
  Forall (contactAt (Crawler.url result)) found ->
  Forall (contactOf crawlResults) found.
Proof.
  intros Hin Hok. apply Forall_impl. intros c [Hw Hsrc].
  split; [exact Hw|]. now exists path, result.
Qed.

Lemma extract_state P crawlResults baseUrl :
  forall pages,
    (forall e, In e pages -> In e crawlResults) ->
    forall st : list ExtractedContact * list string,
      Forall (contactOf crawlResults) (fst st) ->
      Forall (contactOf crawlResults)
        (fst
           (fold_left
              (fun (st : list ExtractedContact * list string) entry =>
                 let (path, result) := entry : string * Crawler.CrawlResult in
                 if negb (Crawler.success result) then st
                 else
                   let st :=
                     addUnseen st
                       (extractEmails P (Crawler.html result) (Crawler.url result)) in
                   let st :=
                     if JS.includes path "contact" || JS.includes path "partner"
                        || String.eqb path "/"
                     then
                       addUnseen st
                         (extractContactForms P (Crawler.html result) baseUrl
                            (Crawler.url result))
                     else st in
                   addUnseen st
                     (extractAgencyMentions P (Crawler.text result)
                        (Crawler.url result)))
              pages st)).
Proof.
  induction pages as [|[path result] rest IH]; intros Hsub st Hst.
  - exact Hst.
  - cbn [fold_left]. apply IH; [intros e He; apply Hsub; now right|].
    destruct (Crawler.success result) eqn:Eok; cbn [negb]; [|exact Hst].
    assert (Hin : In (path, result) crawlResults) by (apply Hsub; now left).
    apply contacts_addUnseen_keeps.
    { apply (contactAt_of crawlResults path result _ Hin Eok),
        extractAgencyMentions_at. }
    destruct (_ || _).
    + apply contacts_addUnseen_keeps.
      { apply (contactAt_of crawlResults path result _ Hin Eok),
          extractContactForms_at. }
      apply contacts_addUnseen_keeps; [|exact Hst].
      apply (contactAt_of crawlResults path result _ Hin Eok), extractEmails_at.
    + apply contacts_addUnseen_keeps; [|exact Hst].
      apply (contactAt_of crawlResults path result _ Hin Eok), extractEmails_at.
Qed.

Lemma extractContacts_of P crawlResults baseUrl :
  Forall (contactOf crawlResults) (extractContacts P crawlResults baseUrl).
Proof.
  unfold extractContacts.
  eapply Permutation_Forall; [apply Permutation_sym, sort_perm|].
  apply (extract_state P crawlResults baseUrl crawlResults (fun e H => H)).
  constructor.
Qed.

(** X9. Every contact of [extractContacts] was found on a successful page
    of the collection, whose URL is its source. An email contact is the
    classification of its own address, which is valid and in lower case; a
    form has confidence 40 and an agency 50, both without sub-type; no
    contact is of kind press. *)
Theorem contacts_are_well_formed P crawlResults baseUrl :
  Forall (contactOf crawlResults) (extractContacts P crawlResults baseUrl).
Proof.
  unfold extractContacts.
  eapply Permutation_Forall; [apply Permutation_sym, sort_perm|].
  apply (extract_state P crawlResults baseUrl crawlResults (fun e H => H)).
  constructor.
Qed.

Lemma classify_range prefix entries dflt (lo hi : Z) :
  Forall (fun entry => (lo <= snd entry <= hi)%Z /\ JS.truthy (fst entry) = true)
    entries ->
  (lo <= snd dflt <= hi)%Z /\ JS.truthy (fst dflt) = true ->
  (lo <= snd (classify prefix entries dflt) <= hi)%Z /\
  JS.truthy (fst (classify prefix entries dflt)) = true.
Proof.
  intros Hentries Hdflt. induction Hentries as [|[k sc] rest Hk _ IH]; simpl.
  - exact Hdflt.
  - destruct (JS.includes prefix k); [exact Hk | exact IH].
Qed.

Lemma email_contact_range c :
  c = createEmailContact (value c) (sourceUrl c) ->
  (20 <= confidenceScore c <= 100)%Z /\
  exists t, emailType c = Some t /\ JS.truthy t = true.
Proof.
  intros ->. unfold createEmailContact.
  pose proof (classify_range
                (JS.toLowerCase (JS.splitHead "@" (value c)))
                EMAIL_PRIORITY ("general", 20%Z) 20 100) as H.
  destruct (classify _ EMAIL_PRIORITY _) as [t sc]. simpl in *.
  destruct H as [Hr Ht].
  - unfold EMAIL_PRIORITY. repeat constructor; simpl; lia.
  - split; [lia | reflexivity].
  - split; [exact Hr|]. now exists t.
Qed.

(** X10. The confidence score of every contact of [extractContacts] lies
    between 20 and 100. *)
Theorem contact_confidence_range P crawlResults baseUrl :
  Forall (fun c => (20 <= confidenceScore c <= 100)%Z)
    (extractContacts P crawlResults baseUrl).
Proof.
  eapply Forall_impl; [|apply extractContacts_of].
  intros c [Hw _]. unfold wellFormedContact in Hw.
  destruct (pathType c).
  - destruct Hw as [Hc _]. now apply email_contact_range.
  - destruct Hw as [_ ->]. lia.
  - destruct Hw as [_ ->]. lia.
  - contradiction.
Qed.

(** X11. Reading back the rows saved for the contacts of a collection gives
    these contacts again, field by field. *)
Theorem saved_contacts_read_back P crawlResults baseUrl :
  Store.getCompanyContacts
    (Store.saveContacts (extractContacts P crawlResults baseUrl)) =
  extractContacts P crawlResults baseUrl.
Proof.
  pose proof (extractContacts_of P crawlResults baseUrl) as H.
  unfold Store.saveContacts. generalize 0%nat.
  induction (extractContacts P crawlResults baseUrl) as [|c rest IH];
    intros index; [reflexivity|].
  inversion H as [|? ? [Hw _] Hrest]; subst.
  cbn [Store.saveContactsFrom Store.getCompanyContacts map].
  unfold Store.getCompanyContacts in IH. rewrite (IH Hrest). f_equal.
  cbn. unfold wellFormedContact in Hw.
  assert (Ht : Store.orAbsent (Store.orAbsent (emailType c)) = emailType c).
  { destruct (pathType c).
    - destruct Hw as [Hc _].
      destruct (email_contact_range c Hc) as (_ & t & Et & Htruthy).
      rewrite Et. simpl. rewrite Htruthy. simpl. now rewrite Htruthy.
    - destruct Hw as [-> _]. reflexivity.
    - destruct Hw as [-> _]. reflexivity.
    - contradiction. }
  rewrite Ht. now destruct c.
Qed.

(** X12. Among the rows saved for the contacts of a collection, the first
    row alone is flagged primary, and no row has a higher confidence score
    than it. *)
Theorem saved_primary_is_most_confident P crawlResults baseUrl :
  match Store.saveContacts (extractContacts P crawlResults baseUrl) with
  | [] => extractContacts P crawlResults baseUrl = []
  | first :: rest =>
      Store.is_primary first = 1%Z /\
      Forall (fun row =>
                Store.is_primary row = 0%Z /\
                (Store.confidence_score row <= Store.confidence_score first)%Z)
        rest
  end.
Proof.
  assert (Hs : StronglySorted
                 (fun a b => (confidenceScore b <= confidenceScore a)%Z)
                 (extractContacts P crawlResults baseUrl))
    by (unfold extractContacts; apply (sort_descending confidenceScore)).
  unfold Store.saveContacts.
  destruct (extractContacts P crawlResults baseUrl) as [|c rest]; [reflexivity|].
  cbn [Store.saveContactsFrom Nat.eqb Store.is_primary Store.confidence_score].
  split; [reflexivity|].
  inversion Hs as [|? ? _ Hc]; subst. clear Hs.
  generalize 0%nat. induction rest as [|d rest IH]; intros index.
  - constructor.
  - inversion Hc; subst. cbn [Store.saveContactsFrom]. constructor.
    + split; [reflexivity | assumption].
    + now apply IH.
Qed.

End ContactsMore.

(* ================================================================== *)
(** ** The people extractor: what a person is and where it comes from *)
(* ================================================================== *)

Module PeopleMore.
Import People.

Lemma find_split {A : Type} (f : A -> bool) (l : list A) :
  match find f l with
  | Some x =>
      exists before after,
        l = before ++ x :: after /\ f x = true /\
        Forall (fun y => f y = false) before
  | None => Forall (fun y => f y = false) l
  end.
Proof.
  induction l as [|a t IH]; simpl.
  - constructor.
  - destruct (f a) eqn:E.
    + exists [], t. repeat split; [exact E | constructor].
    + destruct (find f t) as [x|].
      * destruct IH as (before & after & -> & Hx & Hb).
        exists (a :: before), after. repeat split; [exact Hx|].
        now constructor.
      * now constructor.
Qed.

Lemma existsb_false {A : Type} (f : A -> bool) (l : list A) :
  existsb f l = false <-> Forall (fun x => f x = false) l.
Proof.
  induction l as [|a t IH]; simpl.
  - split; constructor.
  - rewrite orb_false_iff, IH. split.
    + intros [Ha Ht]. now constructor.
    + intros H. inversion H; subst. now split.
Qed.

(** X13. The department of a title is the first department of the table, in
    its order, one of whose keywords occurs in the lower-cased title; a
    title in which no keyword of any department occurs has none. *)
Theorem classifyDepartment_first_match title :
  match classifyDepartment title with
  | Some dept =>
      exists before keywords after,
        RELEVANT_DEPARTMENTS = before ++ (dept, keywords) :: after /\
        (exists keyword,
            In keyword keywords /\
            JS.includes (JS.toLowerCase title) keyword = true) /\
        Forall (noKeyword (JS.toLowerCase title)) before
  | None => Forall (noKeyword (JS.toLowerCase title)) RELEVANT_DEPARTMENTS
  end.
Proof.
  unfold classifyDepartment.
  pose proof (find_split
                (fun entry : string * list string =>
                   existsb (fun keyword => JS.includes (JS.toLowerCase title) keyword)
                     (snd entry))
                RELEVANT_DEPARTMENTS) as H.
  destruct (find _ RELEVANT_DEPARTMENTS) as [[dept keywords]|]; cbn [option_map fst].
  - destruct H as (before & after & E & Hk & Hb).
    exists before, keywords, after. split; [exact E|]. split.
    + cbn [snd] in Hk. apply existsb_exists in Hk.
      destruct Hk as (keyword & Hin & Hinc). now exists keyword.
    + eapply Forall_impl; [|exact Hb]. intros entry He.
      now apply existsb_false in He.
  - eapply Forall_impl; [|exact H]. intros entry He.
    now apply existsb_false in He.
Qed.

Lemma teamPage_at P html u companyName :
  Forall (personAt P companyName u) (extractPeopleFromTeamPage P html u companyName).
Proof.
  unfold extractPeopleFromTeamPage.
  apply (fold_left_invariant (Forall (personAt P companyName u))); [|constructor].
  intros b selector Hb.
  apply (fold_left_invariant (Forall (personAt P companyName u))); [|exact Hb].
  intros b' el Hb'.
  destruct (if negb (JS.truthy (JS.trim (c_heading el)))
               && (String.length (c_text el) <? 200)%nat
            then _ else _) as [name jobTitle].
  destruct (JS.truthy name) eqn:En; [|exact Hb']. cbn [andb].
  destruct (test P (ReNameShape 3) name) eqn:Et; [|exact Hb'].
  destruct (_ || _); [|exact Hb'].
  apply Forall_push; [exact Hb'|].
  unfold personAt, titleText, orNull. cbn.
  repeat split; auto.
  destruct (JS.truthy jobTitle) eqn:Ej; [reflexivity|].
  destruct jobTitle; [reflexivity | discriminate].
Qed.

Lemma text_at P text u companyName :
  Forall (personAt P companyName u) (extractPeopleFromText P text u companyName).
Proof.
  unfold extractPeopleFromText.
  apply (fold_left_invariant (Forall (personAt P companyName u))); [|constructor].
  intros b pattern Hb.
  apply (fold_left_invariant (Forall (personAt P companyName u))); [|exact Hb].
  intros b' m Hb'.
  destruct (JS.truthy _) eqn:En; [|exact Hb']. cbn [andb].
  destruct (test P (ReNameShape 2) _) eqn:Et; [|exact Hb'].
  destruct (find _ b'); [exact Hb'|].
  apply Forall_push; [exact Hb'|].
  unfold personAt, titleText. cbn.
  repeat split; auto.
  destruct (match m_2 m with Some g => orNull (JS.trim g) | None => None end);
    reflexivity.
Qed.

Lemma people_addUnseen_keeps (Q : ExtractedPerson -> Prop) st extracted :
  Forall Q extracted -> Forall Q (fst st) -> Forall Q (fst (addUnseen st extracted)).
Proof.
  intros Hfound. unfold addUnseen.
  apply (fold_left_invariant_in (fun st => Forall Q (fst st))).
  intros [all seen] p Hp Hall. cbn [fst] in *.
  destruct (negb _); [|exact Hall]. cbn [fst].
  apply Forall_push; [exact Hall|].
  rewrite Forall_forall in Hfound. now apply Hfound.
Qed.

Lemma people_state P crawlResults companyName :
  forall pages,
    (forall e, In e pages -> In e crawlResults) ->
    forall st : list ExtractedPerson * list string,
      Forall (personOf P companyName crawlResults) (fst st) ->
      Forall (personOf P companyName crawlResults)
        (fst
           (fold_left
              (fun (st : list ExtractedPerson * list string) entry =>
                 let (path, result) := entry : string * Crawler.CrawlResult in
                 if negb (Crawler.success result) then st
                 else
                   let isTeamPage :=
                     JS.includes path "team" || JS.includes path "leadership"
                     || JS.includes path "about" in
                   let extracted :=
                     if isTeamPage then
                       extractPeopleFromTeamPage P (Crawler.html result)
                         (Crawler.url result) companyName
                     else [] in
                   let fromText :=
                     extractPeopleFromText P (Crawler.text result)
                       (Crawler.url result) companyName in
                   addUnseen st (extracted ++ fromText))
              pages st)).
Proof.
  induction pages as [|[path result] rest IH]; intros Hsub st Hst.
  - exact Hst.
  - cbn [fold_left]. apply IH; [intros e He; apply Hsub; now right|].
    destruct (Crawler.success result) eqn:Eok; cbn [negb]; [|exact Hst].
    cbv zeta. apply people_addUnseen_keeps; [|exact Hst].
    assert (Hin : In (path, result) crawlResults) by (apply Hsub; now left).
    eapply Forall_impl.
    { intros p Hp. exists path, result. split; [exact Hin|].
      split; [exact Eok | exact Hp]. }
    apply Forall_app. split; [|apply text_at].
    destruct (_ || _); [apply teamPage_at | constructor].
Qed.

(** X14. Every person of [extractPeople] was found on a successful page of
    the collection, whose URL is its source; the name is not empty and
    passed a name-shape test, the department is the classification of the
    title, and the search link is the one generated for the name and the
    company. *)
Theorem people_come_from_pages P crawlResults companyName :
  Forall (personOf P companyName crawlResults)
    (extractPeople P crawlResults companyName).
Proof.
  unfold extractPeople.
  apply (people_state P crawlResults companyName crawlResults (fun e H => H)).
  constructor.
Qed.

End PeopleMore.

(* ================================================================== *)
(** ** The contact-path selector: provenance, coverage and ties *)
(* ================================================================== *)

Module PathSelectorMore.
Import PathSelector.

Lemma isEmail_pathType c :
  isEmail c = true <-> Contacts.pathType c = Contacts.T_email.
Proof.
  unfold isEmail. destruct (Contacts.pathType c); split; congruence.
Qed.

Lemma candidates_from P contacts people companyName region :
  Forall (pathFrom P contacts people companyName region)
    (candidates P contacts people companyName region).
Proof.
  unfold candidates.
  apply Forall_push; [|right; right; reflexivity].
  apply (fold_left_invariant_in (Forall (pathFrom P contacts people companyName region))).
  { intros acc c Hc Hacc. unfold genericEmails.
    destruct (isEmail c) eqn:E; [|exact Hacc]. cbn [andb].
    destruct (find _ acc); [exact Hacc|].
    apply Forall_push; [exact Hacc|]. right; left.
    exists c, inbox, 30%Z. repeat split; [exact Hc | now constructor]. }
  apply (fold_left_invariant_in (Forall (pathFrom P contacts people companyName region))).
  { intros acc c Hc Hacc. unfold contactForms.
    destruct (Contacts.pathType c) eqn:E; try exact Hacc.
    apply Forall_push; [exact Hacc|]. right; left.
    exists c, form, 40%Z. repeat split; [exact Hc | now constructor]. }
  apply (fold_left_invariant_in (Forall (pathFrom P contacts people companyName region))).
  { intros acc c Hc Hacc. unfold pressAgencies.
    destruct (Contacts.pathType c) eqn:E; try exact Hacc.
    - destruct (emailTypeIs c "press" || emailTypeIs c "media") eqn:Ep;
        [|exact Hacc].
      apply Forall_push; [exact Hacc|]. right; left.
      exists c, agency, 45%Z. repeat split; [exact Hc|].
      apply RanksPress; [now apply isEmail_pathType | exact Ep].
    - apply Forall_push; [exact Hacc|]. right; left.
      exists c, agency, 50%Z. repeat split; [exact Hc | now constructor]. }
  apply (fold_left_invariant_in (Forall (pathFrom P contacts people companyName region))).
  { intros acc c Hc Hacc. unfold departmentInboxes.
    destruct (isEmail c) eqn:E; cbn [negb]; [|exact Hacc].
    destruct (emailTypeIs c "partnerships" || emailTypeIs c "partner"
              || emailTypeIs c "sponsorship" || emailTypeIs c "sponsor") eqn:Ep.
    - apply Forall_push; [exact Hacc|]. right; left.
      exists c, inbox, 75%Z. repeat split; [exact Hc | now constructor].
    - destruct (emailTypeIs c "marketing" || emailTypeIs c "brand") eqn:Em;
        [|exact Hacc].
      apply Forall_push; [exact Hacc|]. right; left.
      exists c, inbox, 70%Z. repeat split; [exact Hc | now constructor]. }
  apply (fold_left_invariant_in (Forall (pathFrom P contacts people companyName region)));
    [|constructor].
  intros acc person Hperson Hacc. unfold namedEmails.
  destruct (find (mightBelongTo person) contacts) as [c|] eqn:E; [|exact Hacc].
  apply Forall_push; [exact Hacc|]. left.
  exists person, c. repeat split; [exact Hperson | | exact E].
  now apply (find_some _ _ E).
Qed.

Lemma ranked_paths_from P contacts people companyName region :
  Forall (pathFrom P contacts people companyName region)
    (ranked P contacts people companyName region).
Proof.
  eapply Permutation_Forall;
    [apply Permutation_sym, PathSelectorFacts.ranked_perm | apply candidates_from].
Qed.

(** X15. Every ranked path is the pairing of a stored person with the first
    stored email that overlaps the name (score 100), or a stored contact
    ranked by its kind (inbox 75, 70 or 30; agency 50 or 45; form 40) and
    carrying its value and source, or the one external-search fallback
    (25). *)
Theorem ranked_paths_come_from_store P contacts people companyName region :
  Forall (pathFrom P contacts people companyName region)
    (ranked P contacts people companyName region).
Proof.
  unfold ranked.
  eapply Permutation_Forall; [apply Permutation_sym, sort_perm|].
  apply candidates_from.
Qed.

Lemma noFallback_push acc q :
  noFallback acc -> type q <> linkedin -> noFallback (JS.push acc q).
Proof.
  intros. now apply Forall_push.
Qed.

Lemma standsFor_push c acc q : standsFor c acc -> standsFor c (JS.push acc q).
Proof.
  intros (q0 & Hin & Hv). exists q0. split; [|exact Hv]. apply In_push. now left.
Qed.

Lemma standsFor_new c acc t sc :
  t <> linkedin -> standsFor c (JS.push acc (plain t sc c)).
Proof.
  intros Ht. exists (plain t sc c). split; [apply In_push; now right|].
  split; [reflexivity | exact Ht].
Qed.

Lemma loop_reaches (step : list SelectedPath -> Contacts.ExtractedContact -> list SelectedPath)
  (c : Contacts.ExtractedContact) (contacts : list Contacts.ExtractedContact) :
  (forall acc a, noFallback acc -> noFallback (step acc a)) ->
  (forall acc, noFallback acc -> standsFor c (step acc c)) ->
  (forall acc a, standsFor c acc -> standsFor c (step acc a)) ->
  In c contacts ->
  forall acc, noFallback acc -> standsFor c (fold_left step contacts acc).
Proof.
  intros Hno Hnew Hkeep. induction contacts as [|a t IH]; [contradiction|].
  intros [<-|Hin] acc Hacc; simpl.
  - apply (fold_left_invariant (standsFor a)).
    + intros b x. apply Hkeep.
    + now apply Hnew.
  - apply IH; [exact Hin | now apply Hno].
Qed.

Ltac loop_step :=
  unfold namedEmails, departmentInboxes, pressAgencies, contactForms,
    genericEmails;
  PathSelectorFacts.step_cases.

Lemma loops_noFallback contacts people :
  noFallback (fold_left (namedEmails contacts) people []) /\
  (forall acc, noFallback acc -> noFallback (fold_left departmentInboxes contacts acc)) /\
  (forall acc, noFallback acc -> noFallback (fold_left pressAgencies contacts acc)) /\
  (forall acc, noFallback acc -> noFallback (fold_left contactForms contacts acc)) /\
  (forall acc, noFallback acc -> noFallback (fold_left genericEmails contacts acc)).
Proof.
  split; [|split; [|split; [|split]]].
  - apply (fold_left_invariant noFallback); [|constructor].
    intros acc p Hacc. loop_step; try exact Hacc.
    apply noFallback_push; [exact Hacc | discriminate].
  - apply (fold_left_invariant noFallback).
    intros acc c Hacc. loop_step; try exact Hacc;
      (apply noFallback_push; [exact Hacc | discriminate]).
  - apply (fold_left_invariant noFallback).
    intros acc c Hacc. loop_step; try exact Hacc;
      (apply noFallback_push; [exact Hacc | discriminate]).
  - apply (fold_left_invariant noFallback).
    intros acc c Hacc. loop_step; try exact Hacc;
      (apply noFallback_push; [exact Hacc | discriminate]).
  - apply (fold_left_invariant noFallback).
    intros acc c Hacc. loop_step; try exact Hacc;
      (apply noFallback_push; [exact Hacc | discriminate]).
Qed.

Lemma loops_keep c contacts :
  (forall acc, standsFor c acc -> standsFor c (fold_left departmentInboxes contacts acc)) /\
  (forall acc, standsFor c acc -> standsFor c (fold_left pressAgencies contacts acc)) /\
  (forall acc, standsFor c acc -> standsFor c (fold_left contactForms contacts acc)) /\
  (forall acc, standsFor c acc -> standsFor c (fold_left genericEmails contacts acc)).
Proof.
  repeat split; apply (fold_left_invariant (standsFor c));
    intros acc a Hacc; loop_step; try exact Hacc; now apply standsFor_push.
Qed.

Lemma candidates_cover P contacts people companyName region c :
  In c contacts -> isPress c = false ->
  standsFor c (candidates P contacts people companyName region).
Proof.
  intros Hin Hpress. unfold candidates. apply standsFor_push.
  destruct (loops_noFallback contacts people) as (N0 & N1 & N2 & N3 & N4).
  destruct (loops_keep c contacts) as (K1 & K2 & K3 & K4).
  unfold isPress in Hpress.
  destruct (Contacts.pathType c) eqn:Et; try discriminate.
  - (* an email: at the latest the last loop enters it *)
    apply (loop_reaches genericEmails c contacts); auto.
    + intros acc a Hacc. loop_step; try exact Hacc.
      apply noFallback_push; [exact Hacc | discriminate].
    + intros acc Hacc. unfold genericEmails.
      assert (Hc : isEmail c = true) by now apply isEmail_pathType.
      rewrite Hc. cbn [andb].
      destruct (find (fun p => String.eqb (value p) (Contacts.value c)) acc)
        as [q|] eqn:Ef.
      * apply find_some in Ef. destruct Ef as [Hq Hv].
        apply String.eqb_eq in Hv. exists q. split; [exact Hq|].
        split; [exact Hv|]. unfold noFallback in Hacc.
        rewrite Forall_forall in Hacc. now apply Hacc.
      * apply standsFor_new. discriminate.
    + intros acc a Hacc. loop_step; try exact Hacc. now apply standsFor_push.
  - (* a form *)
    apply K4. apply (loop_reaches contactForms c contacts); auto.
    + intros acc a Hacc. loop_step; try exact Hacc.
      apply noFallback_push; [exact Hacc | discriminate].
    + intros acc Hacc. unfold contactForms. rewrite Et.
      apply standsFor_new. discriminate.
    + intros acc a Hacc. loop_step; try exact Hacc. now apply standsFor_push.
  - (* an agency *)
    apply K4, K3. apply (loop_reaches pressAgencies c contacts); auto.
    + intros acc a Hacc. loop_step; try exact Hacc;
        (apply noFallback_push; [exact Hacc | discriminate]).
    + intros acc Hacc. unfold pressAgencies. rewrite Et.
      apply standsFor_new. discriminate.
    + intros acc a Hacc. loop_step; try exact Hacc; now apply standsFor_push.
Qed.

(** X16. No reachable contact is lost: every stored contact that is an
    email, a form or an agency has its value carried by a ranked path other
    than the fallback. *)
Theorem stored_contacts_are_ranked P contacts people companyName region :
  Forall
    (fun c =>
       isPress c = true \/
       exists q,
         In q (ranked P contacts people companyName region) /\
         value q = Contacts.value c /\ type q <> linkedin)
    contacts.
Proof.
  apply Forall_forall. intros c Hin.
  destruct (isPress c) eqn:Ep; [now left | right].
  destruct (candidates_cover P contacts people companyName region c Hin Ep)
    as (q & Hq & Hv).
  exists q. split; [|exact Hv].
  eapply Permutation_in; [apply Permutation_sym, PathSelectorFacts.ranked_perm|].
  exact Hq.
Qed.

Lemma sort_head_max {A : Type} (key : A -> Z) (x : A) (rest : list A) :
  Forall (fun y => (key y <= key x)%Z) rest ->
  JS.sort (fun a b => (key b - key a)%Z) (x :: rest) =
  x :: JS.sort (fun a b => (key b - key a)%Z) rest.
Proof.
  intros Hmax. cbn [JS.sort fold_right].
  fold (JS.sort (fun a b => (key b - key a)%Z) rest).
  assert (Hsorted : Forall (fun y => (key y <= key x)%Z)
                      (JS.sort (fun a b => (key b - key a)%Z) rest))
    by (eapply Permutation_Forall; [apply Permutation_sym, sort_perm | exact Hmax]).
  destruct (JS.sort (fun a b => (key b - key a)%Z) rest) as [|y t]; [reflexivity|].
  cbn [JS.insertBy]. inversion Hsorted; subst.
  destruct (key y - key x <=? 0)%Z eqn:E; [reflexivity|].
  apply Z.leb_gt in E. lia.
Qed.

Lemma loops_keep_head contacts (q : SelectedPath) :
  forall step,
    In step [departmentInboxes; pressAgencies; contactForms; genericEmails] ->
    forall acc,
      (exists rest, acc = q :: rest) ->
      exists rest, fold_left step contacts acc = q :: rest.
Proof.
  intros step Hstep.
  apply (fold_left_invariant (fun acc => exists rest, acc = q :: rest)).
  intros acc c (rest & ->).
  assert (Hpush : forall x, exists rest', JS.push (q :: rest) x = q :: rest')
    by (intros x; now exists (rest ++ [x])).
  simpl in Hstep.
  destruct Hstep as [<-|[<-|[<-|[<-|[]]]]]; loop_step;
    try apply Hpush; now exists rest.
Qed.

(** X17. When some stored person has an overlapping email, the primary is the
    named_email path of the first such person, in stored order, paired with
    the first stored email that overlaps the name. *)
Theorem first_named_person_is_primary
  P contacts before person after c companyName region :
  (forall p, In p before -> find (mightBelongTo p) contacts = None) ->
  find (mightBelongTo person) contacts = Some c ->
  exists sel,
    selectBestPaths P contacts (before ++ person :: after) companyName region
      = Some sel /\
    primary sel =
      mkPath named_email (Contacts.value c) (Some (People.name person))
        (titleOrUndefined (People.jobTitle person)) 100%Z
        (Some (Contacts.sourceUrl c)).
Proof.
  intros Hbefore Hfind.
  set (cand := mkPath named_email (Contacts.value c) (Some (People.name person))
                 (titleOrUndefined (People.jobTitle person)) 100%Z
                 (Some (Contacts.sourceUrl c))).
  assert (Hnamed : exists rest,
             fold_left (namedEmails contacts) (before ++ person :: after) []
             = cand :: rest).
  { rewrite fold_left_app.
    assert (Hb : fold_left (namedEmails contacts) before [] = []).
    { clear Hfind. induction before as [|p t IH]; [reflexivity|].
      cbn [fold_left]. unfold namedEmails at 2.
      rewrite (Hbefore p (or_introl eq_refl)). apply IH.
      intros p' Hp'. apply Hbefore. now right. }
    rewrite Hb. cbn [fold_left]. unfold namedEmails at 2. rewrite Hfind.
    apply (fold_left_invariant (fun acc => exists rest, acc = cand :: rest)).
    - intros acc p (rest & ->). unfold namedEmails.
      destruct (find (mightBelongTo p) contacts) as [e|]; [|now exists rest].
      unfold JS.push. cbn [app]. eexists; reflexivity.
    - now exists []. }
  assert (Hcands : exists rest,
             candidates P contacts (before ++ person :: after) companyName region
             = cand :: rest).
  { unfold candidates.
    assert (Hloops : exists rest,
               fold_left genericEmails contacts
                 (fold_left contactForms contacts
                    (fold_left pressAgencies contacts
                       (fold_left departmentInboxes contacts
                          (fold_left (namedEmails contacts)
                             (before ++ person :: after) []))))
               = cand :: rest).
    { apply loops_keep_head; [simpl; tauto|].
      apply loops_keep_head; [simpl; tauto|].
      apply loops_keep_head; [simpl; tauto|].
      apply loops_keep_head; [simpl; tauto|]. exact Hnamed. }
    destruct Hloops as (rest & ->). now eexists. }
  destruct Hcands as (rest & Hcands).
  pose proof (PathSelectorFacts.candidates_wellScored P contacts
                (before ++ person :: after) companyName region) as Hw.
  rewrite Hcands in Hw. inversion Hw as [|? ? _ Hrest]; subst.
  assert (Hmax : Forall (fun y => (score y <= score cand)%Z) rest).
  { eapply Forall_impl; [|exact Hrest]. intros q Hq.
    unfold wellScored in Hq. cbn [score cand]. destruct (type q); lia. }
  unfold selectBestPaths, ranked. rewrite Hcands.
  unfold byScore. rewrite (sort_head_max score cand rest Hmax).
  eexists. split; reflexivity.
Qed.

(** X17 on two stored people, the second of whom has an overlapping email. *)
Lemma first_named_person_is_primary_witness :
  exists sel,
    selectBestPaths Demo.platform
      [Demo.mail "info@company.com" "info" 40;
       Demo.mail "jane@company.com" "general" 20]
      ([People.mkPerson "Omar Haddad" None None "https://acme.test/team" "x"]
       ++ Demo.janeDoe :: [])
      "Acme" None = Some sel /\
    primary sel =
      mkPath named_email
        (Contacts.value (Demo.mail "jane@company.com" "general" 20))
        (Some (People.name Demo.janeDoe))
        (titleOrUndefined (People.jobTitle Demo.janeDoe)) 100%Z
        (Some (Contacts.sourceUrl (Demo.mail "jane@company.com" "general" 20))).
Proof.
  apply (first_named_person_is_primary Demo.platform
           [Demo.mail "info@company.com" "info" 40;
            Demo.mail "jane@company.com" "general" 20]
           [People.mkPerson "Omar Haddad" None None "https://acme.test/team" "x"]
           Demo.janeDoe [] (Demo.mail "jane@company.com" "general" 20)
           "Acme" None).
  - intros p [<-|[]]. reflexivity.
  - reflexivity.
Defined.

Lemma press_loops contacts :
  forallb isPress contacts = true ->
  (forall person, find (mightBelongTo person) contacts = None) /\
  forall step,
    In step [departmentInboxes; pressAgencies; contactForms; genericEmails] ->
    forall acc, fold_left step contacts acc = acc.
Proof.
  intros Hall. rewrite forallb_forall in Hall. split.
  - intros person. destruct (find _ contacts) as [c|] eqn:E; [|reflexivity].
    apply find_some in E. destruct E as [Hin Hm].
    specialize (Hall c Hin). unfold mightBelongTo, isEmail, isPress in *.
    destruct (Contacts.pathType c); discriminate.
  - intros step Hstep. induction contacts as [|c t IH]; [reflexivity|].
    intros acc. cbn [fold_left].
    assert (Hc : isPress c = true) by (apply Hall; now left).
    assert (Hsame : step acc c = acc).
    { unfold isPress in Hc. simpl in Hstep.
      destruct Hstep as [<-|[<-|[<-|[<-|[]]]]];
        unfold departmentInboxes, pressAgencies, contactForms, genericEmails,
          isEmail;
        destruct (Contacts.pathType c); try discriminate; reflexivity. }
    rewrite Hsame. apply IH. intros x Hx. apply Hall. now right.
Qed.

Lemma pathFrom_score P contacts people companyName region q :
  pathFrom P contacts people companyName region q ->
  (type q = linkedin /\ score q = 25%Z) \/
  (type q <> linkedin /\ (30 <= score q)%Z /\
   exists c, In c contacts /\ value q = Contacts.value c).
Proof.
  intros [(person & c & _ & Hc & _ & ->)|[(c & t & sc & Hc & Hr & ->)| ->]].
  - right. split; [discriminate|]. split; [simpl; lia|]. now exists c.
  - right. destruct Hr; (split; [discriminate|]; split; [simpl; lia|]; now exists c).
  - left. split; reflexivity.
Qed.

(** X18. The primary is the external-search fallback exactly when every
    stored contact is of kind press, in particular when there is none; and
    exactly then there is no backup. *)
Theorem fallback_only_without_contacts P contacts people companyName region :
  exists sel,
    selectBestPaths P contacts people companyName region = Some sel /\
    (type (primary sel) = linkedin <-> forallb isPress contacts = true) /\
    (backup sel = None <-> forallb isPress contacts = true).
Proof.
  destruct (forallb isPress contacts) eqn:Eall.
  - destruct (press_loops contacts Eall) as [Hnone Hloops].
    assert (Hnamed : fold_left (namedEmails contacts) people [] = []).
    { induction people as [|p t IH]; [reflexivity|].
      cbn [fold_left]. unfold namedEmails at 2. now rewrite Hnone. }
    unfold selectBestPaths, ranked, candidates.
    rewrite Hnamed.
    rewrite !Hloops by (simpl; tauto).
    eexists. split; [reflexivity|]. split; split; reflexivity.
  - assert (Hex : exists c, In c contacts /\ isPress c = false).
    { clear -Eall. induction contacts as [|c t IH]; [discriminate|].
      simpl in Eall. destruct (isPress c) eqn:E.
      - destruct (IH Eall) as (x & Hx & Hp). exists x. split; [now right | exact Hp].
      - exists c. split; [now left | exact E]. }
    destruct Hex as (c & Hc & Hp).
    destruct (candidates_cover P contacts people companyName region c Hc Hp)
      as (q & Hq & _ & Hqt).
    pose proof (PathSelectorFacts.ranked_perm P contacts people companyName region)
      as Hperm.
    pose proof (PathSelectorFacts.ranked_sorted P contacts people companyName region)
      as Hsorted.
    pose proof (candidates_from P contacts people companyName region) as Hfrom.
    assert (Hlen : (2 <= List.length (candidates P contacts people companyName region))%nat).
    { unfold candidates, JS.push in *. rewrite length_app. simpl.
      apply in_app_iff in Hq. destruct Hq as [Hq|[<-|[]]].
      - destruct (fold_left genericEmails contacts _); [contradiction | simpl; lia].
      - now contradiction Hqt. }
    rewrite <- (Permutation_length Hperm) in Hlen.
    eapply Permutation_Forall in Hfrom; [|apply Permutation_sym, Hperm].
    apply (Permutation_in _ (Permutation_sym Hperm)) in Hq.
    unfold selectBestPaths.
    destruct (ranked P contacts people companyName region) as [|first rest];
      [simpl in Hlen; lia|].
    destruct rest as [|second rest]; [simpl in Hlen; lia|].
    eexists. split; [reflexivity|]. cbn [primary backup hd_error].
    split; split; try discriminate. intros Hfirst. exfalso.
    rewrite Forall_forall in Hfrom.
    destruct (pathFrom_score _ _ _ _ _ _ (Hfrom first (or_introl eq_refl)))
      as [[_ Hs]|[Hn _]]; [|contradiction].
    destruct (pathFrom_score _ _ _ _ _ _ (Hfrom q Hq)) as [[Hl _]|(_ & Hs' & _)];
      [contradiction|].
    inversion Hsorted as [|? ? _ Hle]; subst.
    rewrite Forall_forall in Hle.
    destruct Hq as [<-|Hq]; [lia|]. specialize (Hle q Hq). lia.
Qed.

Lemma flag_count_absent v rows :
  ~ In v (map Store.value rows) ->
  primaryCount
    (map (fun row => if String.eqb (Store.value row) v
                     then Store.setPrimary 1%Z row else row)
       (map (Store.setPrimary 0%Z) rows)) = 0%nat.
Proof.
  induction rows as [|row rest IH]; intros Hv; [reflexivity|].
  simpl in Hv. unfold primaryCount in *. cbn [map filter].
  cbn [Store.setPrimary Store.value].
  destruct (String.eqb (Store.value row) v) eqn:E.
  - apply String.eqb_eq in E. tauto.
  - cbn. apply IH. tauto.
Qed.

Lemma flag_count_present v rows :
  NoDup (map Store.value rows) ->
  In v (map Store.value rows) ->
  primaryCount
    (map (fun row => if String.eqb (Store.value row) v
                     then Store.setPrimary 1%Z row else row)
       (map (Store.setPrimary 0%Z) rows)) = 1%nat.
Proof.
  induction rows as [|row rest IH]; intros Hnd Hv; [contradiction|].
  cbn [map] in Hnd. inversion Hnd as [|? ? Hnotin Hnd']; subst.
  pose proof (flag_count_absent v rest) as Habsent.
  unfold primaryCount in *. cbn [map filter].
  cbn [Store.setPrimary Store.value].
  destruct (String.eqb (Store.value row) v) eqn:E.
  - apply String.eqb_eq in E. subst v. cbn. now rewrite (Habsent Hnotin).
  - cbn. apply IH; [exact Hnd'|]. destruct Hv as [Hv|Hv]; [|exact Hv].
    apply String.eqb_neq in E. contradiction.
Qed.

Lemma flag_count_reset rows :
  primaryCount (map (Store.setPrimary 0%Z) rows) = 0%nat.
Proof.
  unfold primaryCount. induction rows as [|row rest IH]; [reflexivity | exact IH].
Qed.

(** X19. If the stored contact rows of a company have pairwise distinct
    values and the selection was made from these rows, read in any order,
    then after [savePathSelection] exactly one row is flagged primary, or
    none when the primary is the external-search fallback. *)
Theorem one_row_is_flagged P rows rowsRead people companyName region sel :
  NoDup (map Store.value rows) ->
  Permutation rowsRead rows ->
  selectBestPaths P (Store.getCompanyContacts rowsRead) people companyName region
    = Some sel ->
  primaryCount (Store.savePathSelection rows sel) =
  match type (primary sel) with
  | linkedin => 0%nat
  | _ => 1%nat
  end.
Proof.
  intros Hnd Hperm Hsel.
  assert (Hprimary : In (primary sel)
            (ranked P (Store.getCompanyContacts rowsRead) people companyName region)).
  { unfold selectBestPaths in Hsel.
    destruct (ranked P _ people companyName region) as [|first rest];
      [discriminate|].
    inversion Hsel; subst. now left. }
  pose proof (ranked_paths_from P (Store.getCompanyContacts rowsRead) people
                companyName region) as Hfrom.
  rewrite Forall_forall in Hfrom.
  destruct (pathFrom_score _ _ _ _ _ _ (Hfrom _ Hprimary))
    as [[Hl _]|(Hn & _ & c & Hc & Hv)].
  - unfold Store.savePathSelection. rewrite Hl. apply flag_count_reset.
  - assert (Hin : In (value (primary sel)) (map Store.value rows)).
    { unfold Store.getCompanyContacts in Hc. apply in_map_iff in Hc.
      destruct Hc as (row & <- & Hrow). rewrite Hv. cbn.
      apply in_map. eapply Permutation_in; [exact Hperm | exact Hrow]. }
    unfold Store.savePathSelection.
    destruct (type (primary sel)); try now apply flag_count_present.
    contradiction.
Qed.

(** X19 on the rows saved for two contacts. *)
Lemma one_row_is_flagged_witness :
  primaryCount
    (Store.savePathSelection
       (Store.saveContacts
          [Demo.mail "marketing@company.com" "marketing" 80;
           Demo.mail "info@company.com" "info" 40])
       (mkSelection (plain inbox 70%Z (Demo.mail "marketing@company.com" "marketing" 80))
          (Some (plain inbox 30%Z (Demo.mail "info@company.com" "info" 40)))
          (map (fun title =>
                  (title,
                   LinkedIn.generateLinkedInSearchUrl Demo.platform "Acme"
                     (Some title) None))
             ["Brand Partnerships"; "Sports Marketing"; "Sponsorship Manager";
              "Marketing Director"]))) = 1%nat.
Proof.
  apply (one_row_is_flagged Demo.platform
           (Store.saveContacts
              [Demo.mail "marketing@company.com" "marketing" 80;
               Demo.mail "info@company.com" "info" 40])
           (Store.saveContacts
              [Demo.mail "marketing@company.com" "marketing" 80;
               Demo.mail "info@company.com" "info" 40])
           [] "Acme" None).
  - repeat constructor; simpl; intuition discriminate.
  - apply Permutation_refl.
  - reflexivity.
Defined.

End PathSelectorMore.

(* ================================================================== *)
(** ** The signal analyzer: the first matching page gives the signal *)
(* ================================================================== *)

Module AnalyzerOrder.
Import Analyzer.

Lemma table_keys_distinct : NoDup (map categoryOf SIGNAL_PATTERNS).
Proof.
  unfold SIGNAL_PATTERNS. simpl.
  repeat constructor; simpl; intuition discriminate.
Qed.

Lemma findSignals_by_entry P txt :
  findSignals P txt = flat_map (entrySignal P txt) SIGNAL_PATTERNS.
Proof.
  unfold findSignals.
  assert (H : forall table acc,
             fold_left
               (fun signals entry =>
                  match entry with
                  | (ty, patterns, sc) =>
                      match firstPatternSignal P ty sc patterns txt with
                      | Some s => JS.push signals s
                      | None => signals
                      end
                  end)
               table acc
             = acc ++ flat_map (entrySignal P txt) table).
  { induction table as [|[[ty patterns] sc] rest IH]; intros acc.
    - simpl. now rewrite app_nil_r.
    - cbn [fold_left flat_map]. rewrite IH. unfold entrySignal at 2.
      cbn [fst snd].
      destruct (firstPatternSignal P ty sc patterns txt) as [s|].
      + unfold JS.push. now rewrite <- app_assoc.
      + reflexivity. }
  apply (H SIGNAL_PATTERNS []).
Qed.

Lemma entrySignal_type P txt entry s :
  In s (entrySignal P txt entry) -> type s = categoryOf entry.
Proof.
  unfold entrySignal.
  destruct (firstPatternSignal P _ _ _ txt) as [s'|] eqn:E; [|contradiction].
  intros [<-|[]].
  now destruct (AnalyzerMore.firstPatternSignal_shape P _ _ _ txt s' E).
Qed.

Lemma by_entry_types P txt (table : list (string * list RegExp * Z)) :
  NoDup (map categoryOf table) ->
  NoDup (map type (flat_map (entrySignal P txt) table)) /\
  forall s, In s (flat_map (entrySignal P txt) table) ->
            In (type s) (map categoryOf table).
Proof.
  induction table as [|entry rest IH]; intros Hnd.
  - split; [constructor | contradiction].
  - inversion Hnd as [|? ? Hnotin Hnd']; subst.
    destruct (IH Hnd') as [IHnd IHin]. cbn [flat_map map]. split.
    + rewrite map_app. apply NoDup_app; [|exact IHnd|].
      * unfold entrySignal. destruct (firstPatternSignal P _ _ _ txt);
          repeat constructor; simpl; tauto.
      * intros t Ht Ht'. apply in_map_iff in Ht. destruct Ht as (s & <- & Hs).
        apply in_map_iff in Ht'. destruct Ht' as (s' & E & Hs').
        apply IHin in Hs'. rewrite E in Hs'.
        rewrite (entrySignal_type P txt entry s Hs) in Hs'. contradiction.
    + intros s Hs. apply in_app_iff in Hs. destruct Hs as [Hs|Hs].
      * left. symmetry. now apply (entrySignal_type P txt entry).
      * right. now apply IHin.
Qed.

Lemma findSignals_types_distinct P txt :
  NoDup (map type (findSignals P txt)).
Proof.
  rewrite findSignals_by_entry. apply by_entry_types, table_keys_distinct.
Qed.

Lemma same_key_same_entry (entry entry' : string * list RegExp * Z)
  (table : list (string * list RegExp * Z)) :
  NoDup (map categoryOf table) -> In entry table -> In entry' table ->
  categoryOf entry = categoryOf entry' -> entry = entry'.
Proof.
  induction table as [|e rest IH]; intros Hnd Hin Hin' Hk; [contradiction|].
  inversion Hnd as [|? ? Hnotin Hnd']; subst.
  destruct Hin as [<-|Hin], Hin' as [<-|Hin'].
  - reflexivity.
  - exfalso. apply Hnotin. rewrite Hk. now apply in_map.
  - exfalso. apply Hnotin. rewrite <- Hk. now apply in_map.
  - now apply IH.
Qed.

Lemma findSignals_of_category P txt ty patterns sc :
  In (ty, patterns, sc) SIGNAL_PATTERNS ->
  (forall s, In s (findSignals P txt) -> type s = ty ->
             firstPatternSignal P ty sc patterns txt = Some s) /\
  (forall s, firstPatternSignal P ty sc patterns txt = Some s ->
             In s (findSignals P txt)).
Proof.
  intros Hin. rewrite findSignals_by_entry. split.
  - intros s Hs Ht. apply in_flat_map in Hs. destruct Hs as (entry & He & Hs).
    pose proof (entrySignal_type P txt entry s Hs) as Hk.
    assert (E : entry = (ty, patterns, sc)).
    { apply (same_key_same_entry _ _ SIGNAL_PATTERNS table_keys_distinct He Hin).
      rewrite <- Hk, Ht. reflexivity. }
    subst entry. unfold entrySignal in Hs. cbn [fst snd] in Hs.
    destruct (firstPatternSignal P ty sc patterns txt) as [s'|]; [|contradiction].
    destruct Hs as [->|[]]. reflexivity.
  - intros s Hs. apply in_flat_map. exists (ty, patterns, sc).
    split; [exact Hin|]. unfold entrySignal. cbn [fst snd]. rewrite Hs. now left.
Qed.

Lemma addSignals_step path (all : list SignalMatch) (seen : list string) s :
  seenExactly (all, seen) ->
  (JS.setHas seen (type s) = true /\
   addSignals path (all, seen) [s] = (all, seen)) \/
  (JS.setHas seen (type s) = false /\
   addSignals path (all, seen) [s] =
     (JS.push all (tagged path s), seen ++ [type s]) /\
   seenExactly (JS.push all (tagged path s), seen ++ [type s])).
Proof.
  intros Hex. unfold addSignals. cbn [fold_left].
  destruct (JS.setHas seen (type s)) eqn:E; cbn [negb]; [now left | right].
  split; [reflexivity|]. unfold JS.setAdd. rewrite E.
  split; [reflexivity|]. intros t. cbn [fst snd]. unfold JS.push.
  rewrite map_app, !in_app_iff. cbn [map type tagged].
  specialize (Hex t). cbn [fst snd] in Hex. tauto.
Qed.

Lemma addSignals_cons path st s signals :
  addSignals path st (s :: signals) =
  addSignals path (addSignals path st [s]) signals.
Proof. reflexivity. Qed.

Lemma addSignals_exact path signals :
  forall st, seenExactly st -> seenExactly (addSignals path st signals).
Proof.
  induction signals as [|s rest IH]; intros [all seen] Hst; [exact Hst|].
  rewrite addSignals_cons.
  destruct (addSignals_step path all seen s Hst) as [[_ ->]|(_ & -> & Hst')];
    now apply IH.
Qed.

Lemma addSignals_grows path signals x :
  forall st, In x (fst st) -> In x (fst (addSignals path st signals)).
Proof.
  induction signals as [|s rest IH]; intros [all seen] Hx; [exact Hx|].
  rewrite addSignals_cons. apply IH. unfold addSignals. cbn [fold_left].
  destruct (negb _); [|exact Hx]. cbn [fst] in *. apply In_push. now left.
Qed.

Lemma addSignals_types path signals t :
  forall st,
    In t (map type (fst (addSignals path st signals))) ->
    In t (map type (fst st)) \/ In t (map type signals).
Proof.
  induction signals as [|s rest IH]; intros [all seen] Ht; [now left|].
  rewrite addSignals_cons in Ht. apply IH in Ht. cbn [map].
  destruct Ht as [Ht|Ht]; [|right; now right].
  unfold addSignals in Ht. cbn [fold_left] in Ht.
  destruct (negb _); [|now left]. cbn [fst] in *. unfold JS.push in Ht.
  rewrite map_app, in_app_iff in Ht. cbn [map type In] in Ht.
  destruct Ht as [Ht|[Ht|[]]]; [now left | right; now left].
Qed.

Lemma addSignals_adds path s0 signals :
  NoDup (map type signals) ->
  In s0 signals ->
  forall st,
    seenExactly st ->
    ~ In (type s0) (snd st) ->
    In (tagged path s0) (fst (addSignals path st signals)).
Proof.
  induction signals as [|s rest IH]; intros Hnd Hin [all seen] Hst Hnew;
    [contradiction|].
  cbn [map] in Hnd. inversion Hnd as [|? ? Hnotin Hnd']; subst.
  rewrite addSignals_cons. cbn [snd] in Hnew.
  destruct Hin as [->|Hin].
  - apply addSignals_grows.
    destruct (addSignals_step path all seen s0 Hst) as [[E _]|(_ & -> & _)].
    + apply setHas_In in E. contradiction.
    + cbn [fst]. apply In_push. now right.
  - assert (Hdiff : type s <> type s0).
    { intros E. apply Hnotin. rewrite E. now apply in_map. }
    destruct (addSignals_step path all seen s Hst) as [[_ ->]|(_ & -> & Hst')].
    + now apply IH.
    + apply IH; auto. cbn [snd]. rewrite in_app_iff. simpl. intuition congruence.
Qed.

(** X20. For each category of the table, the first successful page of the
    collection, in its order, whose text matches the category gives the
    signal of that category: the snippet found there, tagged with the categoryOf of
    that page. *)
Theorem first_matching_page_gives_the_signal
  P before path result after ty patterns sc s0 :
  In (ty, patterns, sc) SIGNAL_PATTERNS ->
  Crawler.success result = true ->
  firstPatternSignal P ty sc patterns (Crawler.text result) = Some s0 ->
  (forall e, In e before -> Crawler.success (snd e) = true ->
             firstPatternSignal P ty sc patterns (Crawler.text (snd e)) = None) ->
  In (mkSignal ty
        (String.append "[" (String.append path (String.append "] " (text s0))))
        sc)
     (analyzePageContent P (before ++ (path, result) :: after)).
Proof.
  intros Hentry Hok Hmatch Hbefore.
  destruct (AnalyzerMore.firstPatternSignal_shape P ty sc patterns _ s0 Hmatch)
    as (Hty & Hsc & _).
  assert (Htag : mkSignal ty
                   (String.append "[" (String.append path (String.append "] " (text s0))))
                   sc = tagged path s0)
    by (unfold tagged; now rewrite Hty, Hsc).
  rewrite Htag. unfold analyzePageContent. rewrite fold_left_app.
  set (step := fun (st : list SignalMatch * list string)
                   (entry : string * Crawler.CrawlResult) =>
                 let (path, result) := entry in
                 if negb (Crawler.success result) then st
                 else addSignals path st (findSignals P (Crawler.text result))).
  assert (Hpre : seenExactly (fold_left step before ([], [])) /\
                 ~ In ty (map type (fst (fold_left step before ([], []))))).
  { assert (H : forall st,
               seenExactly st /\ ~ In ty (map type (fst st)) ->
               seenExactly (fold_left step before st) /\
               ~ In ty (map type (fst (fold_left step before st)))).
    { induction before as [|[path' result'] rest IH]; intros st Hst; [exact Hst|].
      cbn [fold_left]. apply IH.
      - intros e He. apply Hbefore. now right.
      - unfold step.
        destruct (Crawler.success result') eqn:Eok'; cbn [negb]; [|exact Hst].
        destruct Hst as [Hex Hno]. split; [now apply addSignals_exact|].
        intros Hin. apply addSignals_types in Hin.
        destruct Hin as [Hin|Hin]; [contradiction|].
        apply in_map_iff in Hin. destruct Hin as (s & Hs & Hin).
        destruct (findSignals_of_category P (Crawler.text result') ty patterns sc
                    Hentry) as [Hcat _].
        specialize (Hcat s Hin Hs).
        pose proof (Hbefore (path', result') (or_introl eq_refl) Eok') as Hnone.
        cbn [snd] in Hnone. rewrite Hnone in Hcat. discriminate. }
    apply H. split; [intros t; simpl; tauto | simpl; tauto]. }
  destruct Hpre as [Hex Hno].
  cbn [fold_left].
  apply (fold_left_invariant (fun st => In (tagged path s0) (fst st))).
  - intros st [path' result'] Hst. unfold step.
    destruct (negb _); [exact Hst | now apply addSignals_grows].
  - unfold step at 1. rewrite Hok. cbn [negb].
    apply addSignals_adds.
    + apply findSignals_types_distinct.
    + now apply (findSignals_of_category P (Crawler.text result) ty patterns sc Hentry).
    + exact Hex.
    + rewrite Hty. intros Hin. apply Hno. now apply Hex.
Qed.

(** X20 on two pages that both show the sport signal. *)
Lemma first_matching_page_gives_the_signal_witness :
  In (mkSignal "sport"
        (String.append "[" (String.append "/" (String.append "] "
           "...Official sponsor of youth football, street culture, community events and partner pro...")))
        15%Z)
     (analyzePageContent Sample.platform
        ([("/missing", Crawler.failed "https://acme.test/missing" "HTTP 404")]
         ++ ("/", Sample.page) :: [("/about", Sample.page)])).
Proof.
  apply (first_matching_page_gives_the_signal Sample.platform
           [("/missing", Crawler.failed "https://acme.test/missing" "HTTP 404")]
           "/" Sample.page [("/about", Sample.page)]
           "sport" [ReSignal "sport" 0] 15%Z
           (mkSignal "sport"
              "...Official sponsor of youth football, street culture, community events and partner pro..."
              15%Z)).
  - left. reflexivity.
  - reflexivity.
  - reflexivity.
  - intros e [<-|[]] H. discriminate H.
Defined.

End AnalyzerOrder.
